(** * Joe: the channel-driven publish/subscribe provider of go-sse

    A shallow embedding of [src/joe.go] (the engine loop [Joe.start], its
    helpers and the [Subscribe]/[Publish]/[Shutdown] facade), of
    [src/replay_noop.go] and of the topic helpers of the server in
    [src/unnamed/part_001]. The definitions come first, then the lemmas,
    then the properties C1 to C10 that the specification states and the
    further properties X1 to X20 read off the code, then a concrete
    provider on which each property is exercised.

    Modelling conventions:
    - a Go [error] is an [option Error]; [None] is [nil];
    - a [subscriber] (a [chan<- error] made by [Subscribe]) is a key into a
      heap of channel states; sending on, closing and receiving from a
      channel follow the Go rules (send on a closed channel and close of a
      closed channel panic, send on a full channel blocks);
    - the engine state is threaded explicitly; calls that leave the engine
      (the sinks' [Send] and [Flush], the replay provider's [Put], [Replay]
      and [GC]) act on an abstract environment [Env] and are logged in a
      trace, so that "how often was this called" can be stated;
    - the iteration order of Go's [range] over a map is unspecified: it is
      an oracle returning some permutation of the map's entries. *)

From stdpp Require Import gmap strings list fin_maps.

#[local] Set Warnings "-clear-no-such-hyp".

(** ** Errors ([src/unnamed/part_001], the file of [Provider] and [Server]) *)

(** [ErrProviderClosed] and [ErrNoTopic] are the two sentinels; every other
    error value (a sink's, a context's, a replay provider's) is [ErrOther]. *)
Inductive Error :=
  | ErrProviderClosed
  | ErrNoTopic
  | ErrOther (code : nat).

#[global] Instance Error_eq_dec : EqDecision Error.
Proof. solve_decision. Defined.

Abbreviation error := (option Error).

(** ** Completion channels: [make(chan error, 1)] *)

Record chan := Chan {
  chan_buf : option Error;   (* the one buffered slot *)
  chan_closed : bool
}.

#[global] Instance chan_eq_dec : EqDecision chan.
Proof. solve_decision. Defined.

(** A channel as [make(chan error, 1)] returns it. *)
Definition chan_make : chan := Chan None false.

(** Result of an operation that may panic or block forever. *)
Inductive outcome (A : Type) :=
  | Val (a : A)
  | Panic
  | Block.
Arguments Val {A} a.
Arguments Panic {A}.
Arguments Block {A}.

(** [ch <- e] *)
Definition chan_send_op (e : Error) (c : chan) : outcome chan :=
  if chan_closed c then Panic
  else match chan_buf c with
       | Some _ => Block
       | None => Val (Chan (Some e) false)
       end.

(** [close(ch)] *)
Definition chan_close_op (c : chan) : outcome chan :=
  if chan_closed c then Panic else Val (Chan (chan_buf c) true).

(** [v := <-ch]: the buffered value if there is one, the zero value [nil]
    once the channel is closed and drained, [None] when the receive blocks. *)
Definition chan_recv_op (c : chan) : option (error * chan) :=
  match chan_buf c with
  | Some e => Some (Some e, Chan None (chan_closed c))
  | None => if chan_closed c then Some (None, c) else None
  end.

(** ** The ticker behind the GC signal *)

(** [NoTicker]: the nil channel and no-op stop function [ticker] returns for
    a non-positive duration. A [time.Ticker] is [Ticking] until [Stop] is
    called on it; after [Stop] no tick is delivered. *)
Inductive ticker_state := NoTicker | Ticking | Stopped.

#[global] Instance ticker_state_eq_dec : EqDecision ticker_state.
Proof. solve_decision. Defined.

Definition ticker (duration : Z) : ticker_state :=
  if (duration <=? 0)%Z then NoTicker else Ticking.

(** The [stop] function [ticker] returns. *)
Definition ticker_stop (t : ticker_state) : ticker_state :=
  match t with
  | NoTicker => NoTicker
  | Ticking | Stopped => Stopped
  end.

(** What the goroutine running [Joe.start] is doing. *)
Inductive loop_state :=
  | NotStarted   (* [init] has not run *)
  | Looping      (* waiting in the [select] of the loop *)
  | Returned     (* left the loop on [<-j.done]; deferred calls have run *)
  | Panicked     (* unwound by a panic; deferred calls have run *)
  | Stuck.       (* blocked for ever in a channel send *)

#[global] Instance loop_state_eq_dec : EqDecision loop_state.
Proof. solve_decision. Defined.

(** ** Method sets of the replay provider types *)

(** The Go types in the signatures of [Put] and [Replay]. *)
Inductive go_type := TMessagePtr | TStringSlice | TSubscription | TError | TBool.

#[global] Instance go_type_eq_dec : EqDecision go_type.
Proof. solve_decision. Defined.

Record method_sig := MethodSig {
  method_name : string;
  method_params : list go_type;
  method_results : list go_type
}.

#[global] Instance method_sig_eq_dec : EqDecision method_sig.
Proof. solve_decision. Defined.

(** [joe.go]: the methods of interface [ReplayProvider]. *)
Definition ReplayProvider_methods : list method_sig :=
  [MethodSig "Put" [TMessagePtr; TStringSlice] [TMessagePtr];
   MethodSig "Replay" [TSubscription] [TError]].

(** [replay_noop.go]: the methods declared on [noopReplayProvider]. *)
Definition noopReplayProvider_methods : list method_sig :=
  [MethodSig "Put" [TMessagePtr] [TMessagePtr];
   MethodSig "Replay" [TSubscription] [TBool]].

(** A type implements an interface when it has every method of the
    interface, with the same signature. The last line of
    [replay_noop.go], which assigns a nil pointer to [noopReplayProvider]
    to a variable of type [ReplayProvider], asserts this of the two. *)
Definition implements (T I : list method_sig) : bool :=
  forallb (λ m, bool_decide (m ∈ T)) I.

(** ** Topics of the server ([src/unnamed/part_001]) *)

(** [const DefaultTopic] and [var defaultTopicSlice]. *)
Definition DefaultTopic : string := EmptyString.

Definition defaultTopicSlice : list string := [DefaultTopic].

(** [getTopics]: the default topic stands in for an empty list. *)
Definition getTopics (initial : list string) : list string :=
  match initial with
  | [] => defaultTopicSlice
  | _ => initial
  end.

(** The loop of [getTopicsLog]; [i] is the index that [range] gives to the
    head of [topics]. *)
Fixpoint getTopicsLog_range (i : nat) (topics : list string) (seen : gset string)
    (ret : string) : string :=
  match topics with
  | [] => ret
  | t :: topics' =>
      if decide (t ∈ seen) then getTopicsLog_range (S i) topics' seen ret
      else
        let seen := {[t]} ∪ seen in
        let ret := if decide (0 < i) then ret +:+ "," else ret in
        let ret := if decide (t = DefaultTopic) then ret +:+ "<sse:default>"
                   else ret +:+ t in
        getTopicsLog_range (S i) topics' seen ret
  end.

(** [getTopicsLog]: the text the server logs for a subscription's topics. *)
Definition getTopicsLog (topics : list string) : string :=
  getTopicsLog_range 0 topics ∅ EmptyString.

(** How [getTopicsLog] writes one topic, and the topics of a list in the
    order of their first occurrence, each once. *)
Definition topic_label (t : string) : string :=
  if decide (t = DefaultTopic) then "<sse:default>" else t.

Definition first_occurrences (topics : list string) : list string :=
  reverse (remove_dups (reverse topics)).

(** ** The engine *)

Section Engine.
Context {Message MessageWriter EventID Env : Type}.

(** The [MessageWriter] interface: a sink accepts a message and flushes.
    Both act on the environment and return a Go error. *)
Class MessageWriterI := {
  Send : MessageWriter → Message → Env → error * Env;
  Flush : MessageWriter → Env → error * Env
}.

Context `{sink : !MessageWriterI}.

(** [src/unnamed/part_001]: [type Subscription struct]. *)
Record Subscription := mkSubscription {
  Client : MessageWriter;
  LastEventID : EventID;
  Topics : list string
}.

(** [joe.go]: the [subscriber] handle is a channel, here its address;
    [subscribers] is [map[subscriber]MessageWriter]. *)
Record subscription := mkSub {
  sub_done : nat;
  sub_Subscription : Subscription
}.

Record messageWithTopics := mkMsg {
  message : Message;
  msg_topics : list string
}.

(** The [ReplayProvider] interface. A call that panics returns [None]
    (with the environment it leaves behind). *)
Record ReplayProvider := mkReplayProvider {
  Put : Message → list string → Env → option Message * Env;
  Replay : Subscription → Env → option error * Env
}.

(** [replay_noop.go]: [type noopReplayProvider struct{}] and its methods. *)
Inductive noopReplayProvider := noopReplayProvider_value.

Definition noopReplayProvider_Put (n : noopReplayProvider) (m : Message) : Message := m.

Definition noopReplayProvider_Replay (n : noopReplayProvider) (_ : Subscription) : bool :=
  true.

(** Calls made by the engine, in the trace newest first. The handle that
    an entry carries is the subscriber on whose behalf the call is made. *)
Inductive event :=
  | EvPut (m : Message) (ts : list string)
  | EvReplay (s : Subscription)
  | EvSend (h : nat) (c : MessageWriter) (m : Message) (r : error)
  | EvFlush (h : nat) (c : MessageWriter) (r : error)
  | EvChanSend (h : nat) (e : Error)
  | EvChanClose (h : nat)
  | EvGC (r : error)
  | EvStopGC
  | EvClosed.

(** The fields of [Joe] that the loop owns or signals through. The
    channels [message], [subscription] and [unsubscription] are
    unbuffered: a send on one of them is the loop taking the matching
    [select] case, see [request]. *)
Record Joe := mkJoe {
  topics : gmap string (gmap nat MessageWriter);
  chans : gmap nat chan;          (* the [done] channels made so far *)
  jdone : bool;                   (* [j.done] is closed *)
  jclosed : bool;                 (* [j.closed] is closed *)
  gcTicker : ticker_state;
  loop : loop_state;
  ReplayGCInterval : Z;
  env : Env;
  trace : list event
}.

Definition set_topics (f : gmap string (gmap nat MessageWriter) → gmap string (gmap nat MessageWriter)) (j : Joe) : Joe :=
  mkJoe (f (topics j)) (chans j) (jdone j) (jclosed j) (gcTicker j) (loop j) (ReplayGCInterval j) (env j) (trace j).

Definition set_chans (f : gmap nat chan → gmap nat chan) (j : Joe) : Joe :=
  mkJoe (topics j) (f (chans j)) (jdone j) (jclosed j) (gcTicker j) (loop j) (ReplayGCInterval j) (env j) (trace j).

Definition set_jdone (b : bool) (j : Joe) : Joe :=
  mkJoe (topics j) (chans j) b (jclosed j) (gcTicker j) (loop j) (ReplayGCInterval j) (env j) (trace j).

Definition set_jclosed (b : bool) (j : Joe) : Joe :=
  mkJoe (topics j) (chans j) (jdone j) b (gcTicker j) (loop j) (ReplayGCInterval j) (env j) (trace j).

Definition set_gcTicker (t : ticker_state) (j : Joe) : Joe :=
  mkJoe (topics j) (chans j) (jdone j) (jclosed j) t (loop j) (ReplayGCInterval j) (env j) (trace j).

Definition set_loop (l : loop_state) (j : Joe) : Joe :=
  mkJoe (topics j) (chans j) (jdone j) (jclosed j) (gcTicker j) l (ReplayGCInterval j) (env j) (trace j).

Definition set_env (e : Env) (j : Joe) : Joe :=
  mkJoe (topics j) (chans j) (jdone j) (jclosed j) (gcTicker j) (loop j) (ReplayGCInterval j) e (trace j).

Definition log (ev : event) (j : Joe) : Joe :=
  mkJoe (topics j) (chans j) (jdone j) (jclosed j) (gcTicker j) (loop j) (ReplayGCInterval j) (env j) (ev :: trace j).

(** *** State monad with panic and blocking *)

Definition M (A : Type) : Type := Joe → outcome A * Joe.

Definition ret {A} (a : A) : M A := λ j, (Val a, j).

Definition bind {A B} (c : M A) (k : A → M B) : M B :=
  λ j, match c j with
       | (Val a, j') => k a j'
       | (Panic, j') => (Panic, j')
       | (Block, j') => (Block, j')
       end.

Notation "'let!' x ':=' c 'in' k" := (bind c (λ x, k))
  (at level 10, x name, c at level 100, k at level 200, only parsing).

Notation "c ;;; k" := (bind c (λ _, k))
  (at level 100, k at level 200, right associativity, only parsing).

Definition get : M Joe := λ j, (Val j, j).

Definition modify (f : Joe → Joe) : M unit := λ j, (Val tt, f j).

(** *** Calls that leave the engine *)

Definition call_Send (h : nat) (c : MessageWriter) (m : Message) : M error :=
  λ j, let '(r, e) := Send c m (env j) in (Val r, log (EvSend h c m r) (set_env e j)).

Definition call_Flush (h : nat) (c : MessageWriter) : M error :=
  λ j, let '(r, e) := Flush c (env j) in (Val r, log (EvFlush h c r) (set_env e j)).

Definition call_Put (replay : ReplayProvider) (m : Message) (ts : list string) : M Message :=
  λ j, let '(r, e) := Put replay m ts (env j) in
       let j' := log (EvPut m ts) (set_env e j) in
       match r with Some m' => (Val m', j') | None => (Panic, j') end.

Definition call_Replay (replay : ReplayProvider) (s : Subscription) : M error :=
  λ j, let '(r, e) := Replay replay s (env j) in
       let j' := log (EvReplay s) (set_env e j) in
       match r with Some r' => (Val r', j') | None => (Panic, j') end.

(** Calling a nil [gcFn] panics. *)
Definition call_gcFn (gcFn : option (Env → error * Env)) : M error :=
  λ j, match gcFn with
       | None => (Panic, j)
       | Some f => let '(r, e) := f (env j) in (Val r, log (EvGC r) (set_env e j))
       end.

Definition stopGCSignal : M unit :=
  modify (λ j, log EvStopGC (set_gcTicker (ticker_stop (gcTicker j)) j)).

(** *** Channel operations on the heap of [done] channels *)

(** [sub <- e]; a handle without a channel is the nil channel, on which
    a send blocks for ever. *)
Definition chan_send (sub : nat) (e : Error) : M unit :=
  λ j, let j' := log (EvChanSend sub e) j in
       match chans j !! sub with
       | None => (Block, j')
       | Some c => match chan_send_op e c with
                   | Val c' => (Val tt, set_chans <[sub := c']> j')
                   | Panic => (Panic, j')
                   | Block => (Block, j')
                   end
       end.

(** [close(sub)]; close of the nil channel panics. *)
Definition chan_close (sub : nat) : M unit :=
  λ j, let j' := log (EvChanClose sub) j in
       match chans j !! sub with
       | None => (Panic, j')
       | Some c => match chan_close_op c with
                   | Val c' => (Val tt, set_chans <[sub := c']> j')
                   | _ => (Panic, j')
                   end
       end.

(** *** [Joe.topic], [Joe.removeSubscriber], [Joe.closeSubscribers] *)

(** Go's [range] over a map yields its entries in an unspecified order:
    [range_subs] and [range_topics] give the order chosen on a run (it may
    depend on the environment), which is some permutation of the entries. *)
Variable range_subs : Env → gmap nat MessageWriter → list (nat * MessageWriter).

Variable range_topics :
  Env → gmap string (gmap nat MessageWriter) → list (string * gmap nat MessageWriter).

Hypothesis range_subs_perm : ∀ e m, range_subs e m ≡ₚ map_to_list m.

Hypothesis range_topics_perm : ∀ e m, range_topics e m ≡ₚ map_to_list m.

(** Most proofs do not depend on the iteration order. *)
Ltac drop_order := try clear range_subs_perm; try clear range_topics_perm.

(** [j.topics[identifier]] read without creating the entry: the nil map
    when there is none. *)
Definition topic_lookup (identifier : string) (j : Joe) : gmap nat MessageWriter :=
  default ∅ (topics j !! identifier).

(** [Joe.topic]: creates the entry when it is missing. *)
Definition topic (identifier : string) : M (gmap nat MessageWriter) :=
  let! j := get in
  match topics j !! identifier with
  | None => modify (set_topics <[identifier := ∅]>)
  | Some _ => ret tt
  end;;;
  let! j := get in
  ret (topic_lookup identifier j).

(** [Joe.removeSubscriber]: the loop deletes [sub] from every subscriber
    map (each is updated in place, in whatever order), then closes it. *)
Definition removeSubscriber (sub : nat) : M unit :=
  modify (set_topics (fmap (delete sub)));;;
  chan_close sub.

(** The inner loop of [Joe.closeSubscribers]. *)
Fixpoint closeSubscribers_subs (subs : list (nat * MessageWriter)) (seen : gset nat)
  : M (gset nat) :=
  match subs with
  | [] => ret seen
  | (sub, _) :: subs' =>
      if decide (sub ∈ seen) then closeSubscribers_subs subs' seen
      else
        let seen := {[sub]} ∪ seen in
        chan_close sub;;;
        closeSubscribers_subs subs' seen
  end.

(** The outer loop of [Joe.closeSubscribers]. *)
Fixpoint closeSubscribers_topics (ts : list (string * gmap nat MessageWriter))
    (seen : gset nat) : M unit :=
  match ts with
  | [] => ret tt
  | (_, subs) :: ts' =>
      let! j := get in
      let! seen := closeSubscribers_subs (range_subs (env j) subs) seen in
      closeSubscribers_topics ts' seen
  end.

Definition closeSubscribers : M unit :=
  let! j := get in
  closeSubscribers_topics (range_topics (env j) (topics j)) ∅.

(** *** The cases of the loop in [Joe.start] *)

(** The parameters [replay] and [gcFn] of [Joe.start]; [gcSignal] and
    [stopGCSignal] are the ticker of the state. *)
Variable replay : ReplayProvider.

Variable gcFn : option (Env → error * Env).

(** [for done, c := range j.topics[topic]], over the entries [subs] that
    [range] yields for the map of [topic]. *)
Fixpoint publish_subs (tp : string) (toDispatch : Message)
    (subs : list (nat * MessageWriter)) (seen : gset nat) : M (gset nat) :=
  match subs with
  | [] => ret seen
  | (sub, c) :: subs' =>
      let! j := get in
      (* an entry deleted before the iteration reaches it is not produced *)
      if decide (is_Some (topic_lookup tp j !! sub)) then
        if decide (sub ∈ seen) then publish_subs tp toDispatch subs' seen
        else
          let! err := call_Send sub c toDispatch in
          let! err := match err with
                      | None => call_Flush sub c
                      | Some _ => ret err
                      end in
          match err with
          | Some e =>
              chan_send sub e;;;
              removeSubscriber sub;;;
              publish_subs tp toDispatch subs' seen
          | None => publish_subs tp toDispatch subs' ({[sub]} ∪ seen)
          end
      else publish_subs tp toDispatch subs' seen
  end.

(** [for _, topic := range msg.topics] *)
Fixpoint publish_topics (toDispatch : Message) (ts : list string) (seen : gset nat)
  : M unit :=
  match ts with
  | [] => ret tt
  | tp :: ts' =>
      let! j := get in
      let! seen := publish_subs tp toDispatch (range_subs (env j) (topic_lookup tp j)) seen in
      publish_topics toDispatch ts' seen
  end.

(** [case msg := <-j.message] *)
Definition publish (msg : messageWithTopics) : M unit :=
  let! toDispatch := call_Put replay (message msg) (msg_topics msg) in
  publish_topics toDispatch (msg_topics msg) ∅.

(** [for _, topic := range sub.Topics { j.topic(topic)[sub.done] = sub.Client }] *)
Fixpoint register (sub : nat) (c : MessageWriter) (ts : list string) : M unit :=
  match ts with
  | [] => ret tt
  | tp :: ts' =>
      let! subs := topic tp in
      modify (set_topics <[tp := <[sub := c]> subs]>);;;
      register sub c ts'
  end.

(** [case sub := <-j.subscription] *)
Definition subscribe (sub : subscription) : M unit :=
  let! err := call_Replay replay (sub_Subscription sub) in
  match err with
  | Some e =>
      chan_send (sub_done sub) e;;;
      chan_close (sub_done sub)
  | None =>
      register (sub_done sub) (Client (sub_Subscription sub)) (Topics (sub_Subscription sub))
  end.

(** [case <-gcSignal] *)
Definition gc : M unit :=
  let! err := call_gcFn gcFn in
  match err with
  | Some _ => stopGCSignal
  | None => ret tt
  end.

(** What the [select] of the loop can receive. *)
Inductive request :=
  | ReqMessage (msg : messageWithTopics)
  | ReqSubscription (sub : subscription)
  | ReqUnsubscription (sub : nat)
  | ReqGC      (* a tick on [gcSignal] *)
  | ReqDone.   (* [j.done] is closed *)

(** A case can be taken only when its channel is ready: the nil channel
    of [NoTicker] and a stopped ticker deliver no tick, [j.done] delivers
    once it is closed. The other three are sends by the facade. *)
Definition ready (r : request) (j : Joe) : bool :=
  match r with
  | ReqGC => bool_decide (gcTicker j = Ticking)
  | ReqDone => jdone j
  | _ => true
  end.

(** The body of the case taken; [true] is the [return] of [<-j.done]. *)
Definition handle (r : request) : M bool :=
  match r with
  | ReqMessage msg => publish msg;;; ret false
  | ReqSubscription sub => subscribe sub;;; ret false
  | ReqUnsubscription sub => removeSubscriber sub;;; ret false
  | ReqGC => gc;;; ret false
  | ReqDone => ret true
  end.

(** The deferred calls of [Joe.start], last deferred first. A panic in
    one of them does not keep the next from running. *)
Definition deferred (normal : bool) (j : Joe) : Joe :=
  let '(_, j1) := stopGCSignal j in
  let '(r, j2) := closeSubscribers j1 in
  let j3 := log EvClosed (set_jclosed true j2) in
  let ok := match r with Val _ => normal && negb (jclosed j2) | _ => false end in
  set_loop (if ok then Returned else Panicked) j3.

(** One iteration of the loop, with the unwinding when it ends. *)
Definition start_step (r : request) (j : Joe) : Joe :=
  match loop j with
  | Looping =>
      if ready r j then
        match handle r j with
        | (Val false, j') => j'
        | (Val true, j') => deferred true j'
        | (Panic, j') => deferred false j'
        | (Block, j') => set_loop Stuck j'
        end
      else j
  | _ => j
  end.

(** [Joe.start] on the requests it receives, in order. *)
Definition start (rs : list request) (j : Joe) : Joe :=
  foldl (λ j r, start_step r j) j rs.

(** *** The facade *)

(** [Joe.init]: runs once. [replay] is [j.ReplayProvider], or the
    default provider when that is nil; [gcFn] is its [GC] method when it
    has one, and otherwise the interval is taken as 0. *)
Definition init (j : Joe) : Joe :=
  match loop j with
  | NotStarted =>
      let replayGCInterval := match gcFn with Some _ => ReplayGCInterval j | None => 0%Z end in
      mkJoe ∅ (chans j) false false (ticker replayGCInterval) Looping
            (ReplayGCInterval j) (env j) (trace j)
  | _ => j
  end.

Inductive call_result :=
  | Returns (err : error)
  | Blocks.

(** Which case a [select] with two ready cases takes. *)
Inductive pick := PickFirst | PickSecond.

(** [Joe.Publish]. The send on [j.message] is ready when the loop waits
    in its [select]; the loop then runs the publish case. *)
Definition Publish (msg : Message) (ts : list string) (p : pick) (j : Joe)
  : call_result * Joe :=
  match ts with
  | [] => (Returns (Some ErrNoTopic), j)
  | _ =>
      let j := init j in
      let accepted := (Returns None, start_step (ReqMessage (mkMsg msg ts)) j) in
      let refused := (Returns (Some ErrProviderClosed), j) in
      match bool_decide (loop j = Looping), jdone j with
      | true, false => accepted
      | true, true => match p with PickFirst => accepted | PickSecond => refused end
      | false, true => refused
      | false, false => (Blocks, j)
      end
  end.

(** [Joe.Shutdown]. [ctx] is [ctx.Err()] at the [select]: [None] for a
    context that is not done before the loop has confirmed its exit. *)
Definition Shutdown (ctx : error) (p : pick) (j : Joe) : call_result * Joe :=
  let j := init j in
  if jdone j then
    (* close of a closed channel panics; the deferred recover sets err *)
    (Returns (Some ErrProviderClosed), j)
  else
    let j := set_jdone true j in
    let j' := start_step ReqDone j in
    match ctx with
    | None => if jclosed j' then (Returns None, j') else (Blocks, j')
    | Some e =>
        match p with
        | PickFirst => if jclosed j' then (Returns None, j') else (Returns (Some e), j')
        | PickSecond => (Returns (Some e), j)
        end
    end.

(** [Joe.Subscribe] up to its first [select]: the handle it then waits
    on, or the result when it returns at once. *)
Definition Subscribe_enter (sub : Subscription) (p : pick) (j : Joe)
  : (call_result + nat) * Joe :=
  let j := init j in
  let sdone := fresh (dom (chans j)) in
  let j := set_chans <[sdone := chan_make]> j in
  let accepted := (inr sdone, start_step (ReqSubscription (mkSub sdone sub)) j) in
  let refused := (inl (Returns (Some ErrProviderClosed)), j) in
  match jdone j, bool_decide (loop j = Looping) with
  | false, true => accepted
  | true, true => match p with PickFirst => refused | PickSecond => accepted end
  | true, false => refused
  | false, false => (inl Blocks, j)
  end.

Inductive wait_result :=
  | WaitReturns (err : error)
  | WaitCtxDone
  | WaitBlocks.

(** The second [select] of [Joe.Subscribe]: [<-done] against
    [<-ctx.Done()]. *)
Definition Subscribe_wait (sdone : nat) (ctx_done : bool) (p : pick) (j : Joe)
  : wait_result * Joe :=
  match chans j !! sdone ≫= chan_recv_op, ctx_done with
  | Some (err, c), false => (WaitReturns err, set_chans <[sdone := c]> j)
  | Some (err, c), true =>
      match p with
      | PickFirst => (WaitReturns err, set_chans <[sdone := c]> j)
      | PickSecond => (WaitCtxDone, j)
      end
  | None, true => (WaitCtxDone, j)
  | None, false => (WaitBlocks, j)
  end.

(** The third [select] of [Joe.Subscribe]: [<-done] against the send on
    [j.unsubscription]. *)
Definition Subscribe_leave (sdone : nat) (p : pick) (j : Joe) : call_result * Joe :=
  let unsubscribed := (Returns None, start_step (ReqUnsubscription sdone) j) in
  match chans j !! sdone ≫= chan_recv_op, bool_decide (loop j = Looping) with
  | Some (err, c), false => (Returns err, set_chans <[sdone := c]> j)
  | Some (err, c), true =>
      match p with
      | PickFirst => (Returns err, set_chans <[sdone := c]> j)
      | PickSecond => unsubscribed
      end
  | None, true => unsubscribed
  | None, false => (Blocks, j)
  end.

(** *** The server's calls on a [Joe] ([src/unnamed/part_001]) *)

(** [Server.init] takes [Server.Provider] as the provider, or a new [Joe]
    when that is nil. [Server_Publish] is [Server.Publish] on a server
    whose provider is the [Joe] of the state. *)
Definition Server_Publish (e : Message) (topics : list string) (p : pick) (j : Joe)
  : call_result * Joe :=
  Publish e (getTopics topics) p j.

(** [Server.getSubscription]. A session is the sink of its client;
    [Session_LastEventID] reads its field [LastEventID]. *)
Definition Server_getSubscription (Session_LastEventID : MessageWriter → EventID)
    (OnSession : option (MessageWriter → Subscription * bool)) (sess : MessageWriter)
  : Subscription * bool :=
  match OnSession with
  | Some f => f sess
  | None => (mkSubscription sess (Session_LastEventID sess) defaultTopicSlice, true)
  end.

(** *** Runs of the provider *)

(** What happens to a provider, one thing after the other: a [Subscribe]
    call reaches its first [select], a waiting [Subscribe] call gets
    through its second or its third [select], a [Publish] or [Shutdown]
    call is made, the ticker ticks. *)
Inductive call :=
  | CallSubscribe (sub : Subscription) (p : pick)
  | CallWait (sdone : nat) (ctx_done : bool) (p : pick)
  | CallLeave (sdone : nat) (p : pick)
  | CallPublish (msg : Message) (ts : list string) (p : pick)
  | CallShutdown (ctx : error) (p : pick)
  | Tick.

Definition run_call (c : call) (j : Joe) : Joe :=
  match c with
  | CallSubscribe sub p => (Subscribe_enter sub p j).2
  | CallWait sdone ctx_done p => (Subscribe_wait sdone ctx_done p j).2
  | CallLeave sdone p => (Subscribe_leave sdone p j).2
  | CallPublish msg ts p => (Publish msg ts p j).2
  | CallShutdown ctx p => (Shutdown ctx p j).2
  | Tick => start_step ReqGC j
  end.

Definition run_calls (cs : list call) (j : Joe) : Joe :=
  foldl (λ j c, run_call c j) j cs.

(** *** What a trace shows *)

(** The [Send] calls made on behalf of subscriber [h]: sink and message. *)
Definition sent_to (h : nat) (tr : list event) : list (MessageWriter * Message) :=
  omap (λ ev, match ev with
              | EvSend h' c m _ => if decide (h' = h) then Some (c, m) else None
              | _ => None
              end) tr.

(** The subscribers whose sink returned an error from [Send] or [Flush]. *)
Definition failures (tr : list event) : list (nat * Error) :=
  omap (λ ev, match ev with
              | EvSend h _ _ (Some e) | EvFlush h _ (Some e) => Some (h, e)
              | _ => None
              end) tr.

Fixpoint count (f : event → bool) (tr : list event) : nat :=
  match tr with
  | [] => 0
  | ev :: tr' => (if f ev then 1 else 0) + count f tr'
  end.

Definition is_close (h : nat) (ev : event) : bool :=
  match ev with EvChanClose h' => bool_decide (h' = h) | _ => false end.

Definition is_EvGC (ev : event) : bool :=
  match ev with EvGC _ => true | _ => false end.

Definition is_EvPut (ev : event) : bool :=
  match ev with EvPut _ _ => true | _ => false end.

(** How often [close] was called on the channel of [h], and how often
    [GC] and [Put] were called. *)
Definition closes (h : nat) (tr : list event) : nat := count (is_close h) tr.

Definition gc_calls (tr : list event) : nat := count is_EvGC tr.

Definition put_calls (tr : list event) : nat := count is_EvPut tr.

(** [Send] and [Flush] are the calls on a sink. *)
Definition is_sink_call (ev : event) : bool :=
  match ev with
  | EvSend _ _ _ _ | EvFlush _ _ _ => true
  | _ => false
  end.

(** What one subscriber's turn adds to the trace (newest first): a [Send]
    that returned nil and then the [Flush] of the same sink, or a [Send]
    that returned an error and no [Flush]. Any other entry is a block of
    its own. *)
Inductive sink_block : list event → Prop :=
  | block_flushed h c m r : sink_block [EvFlush h c r; EvSend h c m None]
  | block_failed h c m e : sink_block [EvSend h c m (Some e)]
  | block_other ev : is_sink_call ev = false → sink_block [ev].

(** The trace has grown by a sequence of such blocks. *)
Definition in_blocks : relation Joe :=
  λ j j', ∃ blocks, trace j' = concat blocks ++ trace j ∧ Forall sink_block blocks.

(** The sink under which [h] is registered in the map of topic [tp]. *)
Definition registered (j : Joe) (tp : string) (h : nat) : option MessageWriter :=
  topics j !! tp ≫= (.!! h).

(** [h] is registered under some topic. *)
Definition is_registered (j : Joe) (h : nat) : Prop :=
  ∃ tp c, registered j tp h = Some c.

(** Every registered handle has a channel that is not closed. *)
Definition registered_open (j : Joe) : Prop :=
  ∀ h, is_registered j h → ∃ ch, chans j !! h = Some ch ∧ chan_closed ch = false.

(** The ways out of the loop: the stop signal, and a panic that unwinds
    it from inside [Put] or [Replay]. *)
Definition leaves_loop (r : request) (j : Joe) : Prop :=
  match r with
  | ReqDone => jdone j = true
  | ReqMessage msg => (Put replay (message msg) (msg_topics msg) (env j)).1 = None
  | ReqSubscription sb => (Replay replay (sub_Subscription sb) (env j)).1 = None
  | ReqUnsubscription _ | ReqGC => False
  end.

(** The cases in which nothing panics: [Put] or [Replay] returns, the
    channel to close is open, the tick finds a [GC] method, the stop
    signal has not been given. *)
Definition returns_to_select (r : request) (j : Joe) : Prop :=
  match r with
  | ReqMessage msg => (Put replay (message msg) (msg_topics msg) (env j)).1 ≠ None
  | ReqSubscription sb => (Replay replay (sub_Subscription sb) (env j)).1 ≠ None
  | ReqUnsubscription h => ∃ ch, chans j !! h = Some ch ∧ chan_closed ch = false
  | ReqGC => gcFn ≠ None
  | ReqDone => jdone j = false
  end.

(** A subscription request as [Subscribe] sends it: its channel is fresh
    from [make], and not in the table. *)
Definition request_fresh (r : request) (j : Joe) : Prop :=
  match r with
  | ReqSubscription sb =>
      chans j !! sub_done sb = Some chan_make ∧ ¬ is_registered j (sub_done sb)
  | _ => True
  end.

(** Every registered handle has an open channel with an empty buffer. *)
Definition wf (j : Joe) : Prop :=
  ∀ tp h c, registered j tp h = Some c → chans j !! h = Some chan_make.

(** [wf] as a check that can be run. *)
Definition wfb (j : Joe) : bool :=
  bool_decide (map_Forall (λ _ subs,
                 map_Forall (λ h (_ : MessageWriter), chans j !! h = Some chan_make) subs)
               (topics j)).

(** *** Relations and invariants used in the proofs *)

(** [preserves R c]: running [c] relates the state before to the state
    after, whatever the outcome. *)
Definition preserves {A} (R : relation Joe) (c : M A) : Prop :=
  ∀ j, R j (c j).2.

(** No entry of the topic table goes away. *)
Definition topics_persist : relation Joe :=
  λ j j', dom (topics j) ⊆ dom (topics j').

(** Field [f] of the state is the same. *)
Definition keeps {X} (f : Joe → X) : relation Joe := λ j j', f j' = f j.

(** Once the ticker is stopped (or absent) it stays so and [GC] is not
    called. *)
Definition gc_off : relation Joe :=
  λ j j', gcTicker j ≠ Ticking →
          gcTicker j' ≠ Ticking ∧ gc_calls (trace j') = gc_calls (trace j).


(** The topic table after [j.topic(tp)[sub] = c] for each [tp] of [ts]. *)
Fixpoint register_topics (sub : nat) (c : MessageWriter) (ts : list string)
    (m : gmap string (gmap nat MessageWriter)) : gmap string (gmap nat MessageWriter) :=
  match ts with
  | [] => m
  | tp :: ts' => register_topics sub c ts' (<[tp := <[sub := c]> (default ∅ (m !! tp))]> m)
  end.

(** [close] on an open channel. *)
Definition chan_closed_of (ch : chan) : chan := Chan (chan_buf ch) true.

(** The handles in the subscriber maps of [ts]. *)
Definition handles_of (ts : list (string * gmap nat MessageWriter)) : gset nat :=
  ⋃ ((dom ∘ snd) <$> ts).

(** The invariant of the two loops of the publish case, from the state
    [j0] they start in, for a message published to the topics [ts]. [seen]
    is the loop's set; [F] holds the subscribers removed so far, each with
    the error its sink returned.
    - the table is the one of [j0] without the subscribers of [F];
    - the channels are those of [j0], except that a subscriber of [F]
      has its error buffered and is closed;
    - the trace has grown by one [Send] of [m] for each subscriber of
      [seen] and of [F], to the sink it has under one of the topics, by
      none for the others, and by the failures [F]. *)
Definition publish_inv (j0 : Joe) (ts : list string) (m : Message) (seen : gset nat)
    (F : gmap nat Error) (j : Joe) : Prop :=
  (∀ tp h, registered j tp h =
           if decide (h ∈ dom F) then None else registered j0 tp h) ∧
  (∀ h, chans j !! h = match F !! h with
                       | Some e => Some (Chan (Some e) true)
                       | None => chans j0 !! h
                       end) ∧
  seen ## dom F ∧
  ∃ new, trace j = new ++ trace j0 ∧
    (∀ h, h ∈ seen ∪ dom F →
          ∃ tp c, tp ∈ ts ∧ registered j0 tp h = Some c ∧ sent_to h new = [(c, m)]) ∧
    (∀ h, h ∉ seen ∪ dom F → sent_to h new = []) ∧
    (∀ h e, (h, e) ∈ failures new ↔ F !! h = Some e).

(** ** Frame lemmas: what the cases of the loop leave alone *)

Section frame.
Context (R : relation Joe) `{!PreOrder R}.

Lemma preserves_ret {A} (a : A) : preserves R (ret a).
Proof. drop_order. intros j. simpl. reflexivity. Qed.

Lemma preserves_get : preserves R get.
Proof. drop_order. intros j. simpl. reflexivity. Qed.

Lemma preserves_bind {A B} (c : M A) (k : A → M B) :
  preserves R c → (∀ a, preserves R (k a)) → preserves R (bind c k).
Proof. drop_order.
  intros Hc Hk j. unfold bind. specialize (Hc j).
  destruct (c j) as [[a| |] j']; simpl in *; try done.
  etrans; [exact Hc | apply Hk].
Qed.

Lemma preserves_modify (f : Joe → Joe) : (∀ j, R j (f j)) → preserves R (modify f).
Proof. drop_order. intros Hf j. apply Hf. Qed.

(** [R] does not look at the environment or at the channels, nor at the
    trace except for its [GC] entries. *)
Hypothesis R_log : ∀ ev j, is_EvGC ev = false → R j (log ev j).
Hypothesis R_env : ∀ e j, R j (set_env e j).
Hypothesis R_chans : ∀ f j, R j (set_chans f j).

Lemma preserves_call_Send h c m : preserves R (call_Send h c m).
Proof. drop_order.
  intros j. unfold call_Send. destruct (Send c m (env j)) as [r e]. simpl.
  etrans; [apply (R_env e) | by apply R_log].
Qed.

Lemma preserves_call_Flush h c : preserves R (call_Flush h c).
Proof. drop_order.
  intros j. unfold call_Flush. destruct (Flush c (env j)) as [r e]. simpl.
  etrans; [apply (R_env e) | by apply R_log].
Qed.

Lemma preserves_call_Put m ts : preserves R (call_Put replay m ts).
Proof. drop_order.
  intros j. unfold call_Put. destruct (Put replay m ts (env j)) as [r e].
  assert (R j (log (EvPut m ts) (set_env e j))).
  { etrans; [apply (R_env e) | by apply R_log]. }
  by destruct r.
Qed.

Lemma preserves_call_Replay sb : preserves R (call_Replay replay sb).
Proof. drop_order.
  intros j. unfold call_Replay. destruct (Replay replay sb (env j)) as [r e].
  assert (R j (log (EvReplay sb) (set_env e j))).
  { etrans; [apply (R_env e) | by apply R_log]. }
  by destruct r.
Qed.

Lemma preserves_chan_send sub e : preserves R (chan_send sub e).
Proof. drop_order.
  intros j. unfold chan_send.
  assert (R j (log (EvChanSend sub e) j)) by by apply R_log.
  destruct (chans j !! sub) as [c|]; [|done].
  destruct (chan_send_op e c); simpl; try done.
  etrans; [eassumption | apply R_chans].
Qed.

Lemma preserves_chan_close sub : preserves R (chan_close sub).
Proof. drop_order.
  intros j. unfold chan_close.
  assert (R j (log (EvChanClose sub) j)) by by apply R_log.
  destruct (chans j !! sub) as [c|]; [|done].
  destruct (chan_close_op c); simpl; try done.
  etrans; [eassumption | apply R_chans].
Qed.

Lemma preserves_closeSubscribers_subs subs seen :
  preserves R (closeSubscribers_subs subs seen).
Proof. drop_order.
  revert seen. induction subs as [|[sub c] subs IH]; intros seen; simpl.
  - apply preserves_ret.
  - case_decide; [apply IH|].
    apply preserves_bind; [apply preserves_chan_close | intros _; apply IH].
Qed.

Lemma preserves_closeSubscribers_topics ts seen :
  preserves R (closeSubscribers_topics ts seen).
Proof. drop_order.
  revert seen. induction ts as [|[tp subs] ts IH]; intros seen; simpl.
  - apply preserves_ret.
  - apply preserves_bind; [apply preserves_get | intros j].
    apply preserves_bind; [apply preserves_closeSubscribers_subs | intros seen'; apply IH].
Qed.

Lemma preserves_closeSubscribers : preserves R closeSubscribers.
Proof. drop_order.
  apply preserves_bind; [apply preserves_get | intros j].
  apply preserves_closeSubscribers_topics.
Qed.

(** [R] allows the topic table to change as long as no entry goes away. *)
Hypothesis R_topics :
  ∀ f j, dom (topics j) ⊆ dom (f (topics j)) → R j (set_topics f j).

Lemma preserves_topic tp : preserves R (topic tp).
Proof. drop_order.
  apply preserves_bind; [apply preserves_get | intros j].
  apply preserves_bind; [|intros _; apply preserves_bind;
    [apply preserves_get | intros; apply preserves_ret]].
  destruct (topics j !! tp); [apply preserves_ret|].
  apply preserves_modify. intros j'. apply R_topics. set_solver.
Qed.

Lemma preserves_removeSubscriber sub : preserves R (removeSubscriber sub).
Proof. drop_order.
  apply preserves_bind; [|intros _; apply preserves_chan_close].
  apply preserves_modify. intros j. apply R_topics. by rewrite dom_fmap_L.
Qed.

Lemma preserves_publish_subs tp m subs seen : preserves R (publish_subs tp m subs seen).
Proof. drop_order.
  revert seen. induction subs as [|[sub c] subs IH]; intros seen; simpl.
  - apply preserves_ret.
  - apply preserves_bind; [apply preserves_get | intros j].
    case_decide; [|apply IH]. case_decide; [apply IH|].
    apply preserves_bind; [apply preserves_call_Send | intros err].
    apply preserves_bind.
    { destruct err; [apply preserves_ret | apply preserves_call_Flush]. }
    intros [e|]; [|apply IH].
    apply preserves_bind; [apply preserves_chan_send | intros _].
    apply preserves_bind; [apply preserves_removeSubscriber | intros _; apply IH].
Qed.

Lemma preserves_publish_topics m ts seen : preserves R (publish_topics m ts seen).
Proof. drop_order.
  revert seen. induction ts as [|tp ts IH]; intros seen; simpl.
  - apply preserves_ret.
  - apply preserves_bind; [apply preserves_get | intros j].
    apply preserves_bind; [apply preserves_publish_subs | intros seen'; apply IH].
Qed.

Lemma preserves_publish msg : preserves R (publish msg).
Proof. drop_order.
  apply preserves_bind; [apply preserves_call_Put | intros m].
  apply preserves_publish_topics.
Qed.

Lemma preserves_register sub c ts : preserves R (register sub c ts).
Proof. drop_order.
  induction ts as [|tp ts IH]; simpl.
  - apply preserves_ret.
  - apply preserves_bind; [apply preserves_topic | intros subs].
    apply preserves_bind; [|intros _; apply IH].
    apply preserves_modify. intros j. apply R_topics. set_solver.
Qed.

Lemma preserves_subscribe sb : preserves R (subscribe sb).
Proof. drop_order.
  apply preserves_bind; [apply preserves_call_Replay | intros [e|]].
  - apply preserves_bind; [apply preserves_chan_send | intros _; apply preserves_chan_close].
  - apply preserves_register.
Qed.

(** The cases other than the GC tick. *)
Lemma preserves_handle r : r ≠ ReqGC → preserves R (handle r).
Proof. drop_order.
  intros Hr. destruct r; simpl; try done.
  - apply preserves_bind; [apply preserves_publish | intros; apply preserves_ret].
  - apply preserves_bind; [apply preserves_subscribe | intros; apply preserves_ret].
  - apply preserves_bind; [apply preserves_removeSubscriber | intros; apply preserves_ret].
  - apply preserves_ret.
Qed.

(** [R] allows what the unwinding does: stopping the ticker, closing
    [j.closed], leaving the loop. *)
Hypothesis R_stopGC : ∀ j, R j (set_gcTicker (ticker_stop (gcTicker j)) j).
Hypothesis R_jclosed : ∀ b j, R j (set_jclosed b j).
Hypothesis R_loop : ∀ l j, R j (set_loop l j).

Lemma preserves_stopGCSignal : preserves R stopGCSignal.
Proof. drop_order.
  apply preserves_modify. intros j.
  etrans; [apply R_stopGC | by apply R_log].
Qed.

Lemma deferred_related normal j : R j (deferred normal j).
Proof. drop_order.
  unfold deferred.
  pose proof (preserves_stopGCSignal j) as H1.
  destruct (stopGCSignal j) as [o1 j1]. simpl in H1.
  pose proof (preserves_closeSubscribers j1) as H2.
  destruct (closeSubscribers j1) as [o2 j2]. simpl in H2.
  etrans; [exact H1|]. etrans; [exact H2|].
  etrans; [apply (R_jclosed true)|]. etrans; [by apply (R_log EvClosed)|].
  apply R_loop.
Qed.

Lemma start_step_related_noGC r j : r ≠ ReqGC → R j (start_step r j).
Proof. drop_order.
  intros Hr. unfold start_step.
  destruct (loop j); try reflexivity.
  destruct (ready r j); [|reflexivity].
  pose proof (preserves_handle r Hr j) as Hh.
  destruct (handle r j) as [[[]| |] j']; simpl in Hh; try done.
  - etrans; [exact Hh | apply deferred_related].
  - etrans; [exact Hh | apply deferred_related].
  - etrans; [exact Hh | apply R_loop].
Qed.

(** [R] does not look at the [GC] entries of the trace either. *)
Hypothesis R_log_gc : ∀ r j, R j (log (EvGC r) j).

Lemma preserves_gc : preserves R gc.
Proof. drop_order.
  apply preserves_bind.
  - intros j. unfold call_gcFn. destruct gcFn as [f|]; [|reflexivity].
    destruct (f (env j)) as [r e]. simpl.
    etrans; [apply (R_env e) | apply R_log_gc].
  - intros [e|]; [apply preserves_stopGCSignal | apply preserves_ret].
Qed.

Lemma start_step_related r j : R j (start_step r j).
Proof. drop_order.
  assert (r = ReqGC ∨ r ≠ ReqGC) as [->|Hr] by (destruct r; auto);
    [|by apply start_step_related_noGC].
  unfold start_step.
  destruct (loop j); try reflexivity.
  destruct (ready ReqGC j); [|reflexivity].
  simpl.
  assert (preserves R (gc;;; ret false)) as Hh.
  { apply preserves_bind; [apply preserves_gc | intros; apply preserves_ret]. }
  specialize (Hh j).
  destruct (bind gc _ j) as [[[]| |] j']; simpl in Hh; try done.
  - etrans; [exact Hh | apply deferred_related].
  - etrans; [exact Hh | apply deferred_related].
  - etrans; [exact Hh | apply R_loop].
Qed.

Lemma start_related rs j : R j (start rs j).
Proof. drop_order.
  revert j. induction rs as [|r rs IH]; intros j; simpl; [reflexivity|].
  etrans; [apply (start_step_related r) | apply IH].
Qed.
End frame.

#[local] Instance topics_persist_preorder : PreOrder topics_persist.
Proof. drop_order. split; [intros j | intros j1 j2 j3]; unfold topics_persist; set_solver. Qed.

#[local] Instance keeps_preorder {X} (f : Joe → X) : PreOrder (keeps f).
Proof. drop_order. split; [intros j | intros j1 j2 j3]; unfold keeps; congruence. Qed.

#[local] Instance gc_off_preorder : PreOrder gc_off.
Proof. drop_order.
  split; [intros j | intros j1 j2 j3]; unfold gc_off; [done|].
  intros H12 H23 H1. destruct (H12 H1) as [H2 E12].
  destruct (H23 H2) as [H3 E23]. split; [done | congruence].
Qed.

Lemma ticker_stop_not_Ticking t : ticker_stop t ≠ Ticking.
Proof. drop_order. by destruct t. Qed.

Lemma start_step_gc_off r j : gc_off j (start_step r j).
Proof. drop_order.
  assert (r = ReqGC ∨ r ≠ ReqGC) as [->|Hr] by (destruct r; auto).
  - intros Hoff. unfold start_step. destruct (loop j); try done.
    simpl. rewrite bool_decide_eq_false_2; done.
  - apply start_step_related_noGC; try apply _; try done.
    + intros ev j' Hev Hoff. unfold gc_calls. simpl. by rewrite Hev.
    + intros j' Hoff. simpl. split; [apply ticker_stop_not_Ticking | done].
Qed.

Lemma start_gc_off rs j : gc_off j (start rs j).
Proof. drop_order.
  revert j. induction rs as [|r rs IH]; intros j; simpl; [reflexivity|].
  etrans; [apply (start_step_gc_off r) | apply IH].
Qed.

(** ** The cases other than the GC tick do not look at the ticker *)

















Lemma set_gcTicker_same j : set_gcTicker (gcTicker j) j = j.
Proof. drop_order. by destruct j. Qed.

(** ** What [Joe.topic] and the registration loop compute *)

Lemma set_topics_id j : set_topics (λ m, m) j = j.
Proof. drop_order. by destruct j. Qed.

Lemma topic_run tp j :
  topic tp j = (Val (topic_lookup tp j),
                match topics j !! tp with
                | None => set_topics <[tp := ∅]> j
                | Some _ => j
                end).
Proof. drop_order.
  unfold topic, bind, get, topic_lookup. simpl.
  destruct (topics j !! tp) as [subs|] eqn:E; simpl.
  - by rewrite E.
  - by rewrite lookup_insert_eq.
Qed.

Lemma register_run sub c ts j :
  register sub c ts j = (Val tt, set_topics (register_topics sub c ts) j).
Proof. drop_order.
  revert j. induction ts as [|tp ts IH]; intros j; simpl.
  - unfold ret. by rewrite set_topics_id.
  - unfold bind at 1. rewrite topic_run. unfold bind, modify. rewrite IH.
    f_equal. unfold topic_lookup, set_topics.
    destruct (topics j !! tp) as [subs|] eqn:E; simpl; [done|].
    by rewrite insert_insert_eq.
Qed.

Lemma register_topics_lookup sub c ts m tp h :
  register_topics sub c ts m !! tp ≫= (.!! h) =
  if decide (h = sub ∧ tp ∈ ts) then Some c else m !! tp ≫= (.!! h).
Proof. drop_order.
  revert m. induction ts as [|tp' ts IH]; intros m; simpl.
  - case_decide as Hd; [|done]. destruct Hd as [_ Hd]. by apply elem_of_nil in Hd.
  - rewrite IH. clear IH.
    destruct (decide (tp = tp')) as [->|Hne].
    + rewrite lookup_insert_eq. simpl.
      destruct (decide (h = sub)) as [->|Hh].
      * rewrite lookup_insert_eq.
        rewrite (decide_True (P := sub = sub ∧ tp' ∈ tp' :: ts)) by set_solver.
        by case_decide.
      * rewrite lookup_insert_ne by done.
        rewrite !decide_False by naive_solver.
        by destruct (m !! tp').
    + rewrite lookup_insert_ne by done.
      apply decide_ext. set_solver.
Qed.

Lemma register_topics_dom sub c ts m : dom m ⊆ dom (register_topics sub c ts m).
Proof. drop_order.
  revert m. induction ts as [|tp ts IH]; intros m; simpl; [done|].
  etrans; [|apply IH]. set_solver.
Qed.

(** ** What [Joe.closeSubscribers] does *)

Lemma chan_close_run sub ch j :
  chans j !! sub = Some ch → chan_closed ch = false →
  chan_close sub j =
    (Val tt, set_chans <[sub := chan_closed_of ch]> (log (EvChanClose sub) j)).
Proof. drop_order.
  intros Hc Ho. unfold chan_close. rewrite Hc.
  unfold chan_close_op. by rewrite Ho.
Qed.

Lemma count_app f tr1 tr2 : count f (tr1 ++ tr2) = count f tr1 + count f tr2.
Proof. drop_order. induction tr1 as [|ev tr1 IH]; simpl; [done|]. rewrite IH. lia. Qed.

Lemma closes_cons ev tr h :
  closes h (ev :: tr) = (if is_close h ev then 1 else 0) + closes h tr.
Proof. drop_order. done. Qed.

(** The inner loop closes the handles of [subs] that are not in [seen],
    each once, and adds them to [seen]. *)
Lemma closeSubscribers_subs_run subs seen j :
  (∀ h, h ∈ subs.*1 → h ∉ seen →
        ∃ ch, chans j !! h = Some ch ∧ chan_closed ch = false) →
  ∃ j', closeSubscribers_subs subs seen j = (Val (list_to_set subs.*1 ∪ seen), j') ∧
        (∀ h, closes h (trace j') =
              closes h (trace j)
              + if decide (h ∈ list_to_set (C:=gset nat) subs.*1 ∖ seen) then 1 else 0) ∧
        (∀ h, chans j' !! h =
              if decide (h ∈ list_to_set (C:=gset nat) subs.*1 ∖ seen)
              then chan_closed_of <$> chans j !! h else chans j !! h).
Proof. drop_order.
  revert seen j. induction subs as [|[sub c] subs IH]; intros seen j Hopen; simpl.
  - eexists. split; [unfold ret; f_equal; f_equal; set_solver|].
    split; intros h; rewrite decide_False by set_solver; [lia | done].
  - case_decide as Hseen.
    + destruct (IH seen j) as (j' & Hrun & Hcl & Hch).
      { intros h Hh. apply Hopen. set_solver. }
      exists j'. split; [rewrite Hrun; f_equal; f_equal; set_solver|].
      split; intros h; [rewrite Hcl; f_equal | rewrite Hch]; apply decide_ext; set_solver.
    + destruct (Hopen sub) as (ch & Hc & Ho); [set_solver | done |].
      unfold bind. rewrite (chan_close_run _ _ _ Hc Ho).
      destruct (IH ({[sub]} ∪ seen)
                  (set_chans <[sub := chan_closed_of ch]> (log (EvChanClose sub) j)))
        as (j' & Hrun & Hcl & Hch).
      { intros h Hh Hn. simpl. rewrite lookup_insert_ne by set_solver.
        apply Hopen; set_solver. }
      exists j'. split; [rewrite Hrun; f_equal; f_equal; set_solver|].
      split; intros h.
      * rewrite Hcl. simpl. rewrite closes_cons. simpl.
        destruct (decide (sub = h)) as [->|Hne].
        -- rewrite bool_decide_eq_true_2 by done.
           rewrite decide_False by set_solver. rewrite decide_True by set_solver. lia.
        -- rewrite bool_decide_eq_false_2 by done. simpl.
           f_equal. apply decide_ext. set_solver.
      * rewrite Hch. simpl.
        destruct (decide (sub = h)) as [->|Hne].
        -- rewrite decide_False by set_solver. rewrite decide_True by set_solver.
           by rewrite lookup_insert_eq, Hc.
        -- rewrite lookup_insert_ne by done. apply decide_ext. set_solver.
Qed.

Lemma range_subs_keys e (m : gmap nat MessageWriter) :
  list_to_set (C:=gset nat) (range_subs e m).*1 = dom m.
Proof.
  apply set_eq. intros h.
  rewrite elem_of_list_to_set, elem_of_dom, range_subs_perm, list_elem_of_fmap.
  split.
  - intros ([h' c] & -> & Hin). apply elem_of_map_to_list in Hin. by exists c.
  - intros [c Hc]. exists (h, c). split; [done|]. by apply elem_of_map_to_list.
Qed.

Lemma closeSubscribers_topics_run ts seen j :
  (∀ h, h ∈ handles_of ts → h ∉ seen →
        ∃ ch, chans j !! h = Some ch ∧ chan_closed ch = false) →
  ∃ j', closeSubscribers_topics ts seen j = (Val tt, j') ∧
        (∀ h, closes h (trace j') =
              closes h (trace j) + if decide (h ∈ handles_of ts ∖ seen) then 1 else 0) ∧
        (∀ h, chans j' !! h =
              if decide (h ∈ handles_of ts ∖ seen)
              then chan_closed_of <$> chans j !! h else chans j !! h).
Proof.
  revert seen j. induction ts as [|[tp subs] ts IH]; intros seen j Hopen; simpl.
  - eexists. split; [done|]. unfold handles_of. simpl.
    split; intros h; rewrite decide_False by set_solver; [lia | done].
  - unfold bind at 1, get.
    destruct (closeSubscribers_subs_run (range_subs (env j) subs) seen j)
      as (j1 & Hrun1 & Hcl1 & Hch1).
    { intros h Hh. apply Hopen. unfold handles_of. simpl.
      apply elem_of_union_l. rewrite <-(range_subs_keys (env j)).
      by apply elem_of_list_to_set. }
    unfold bind. rewrite Hrun1. rewrite range_subs_keys in *.
    destruct (IH (dom subs ∪ seen) j1) as (j' & Hrun & Hcl & Hch).
    { intros h Hh Hn. rewrite Hch1. rewrite decide_False by set_solver.
      apply Hopen; [|set_solver]. unfold handles_of in *. simpl. set_solver. }
    exists j'. split; [done|].
    assert (handles_of ((tp, subs) :: ts) = dom subs ∪ handles_of ts) as -> by done.
    split; intros h.
    + rewrite Hcl, Hcl1. repeat case_decide; try lia; exfalso; set_solver.
    + rewrite Hch, Hch1. repeat case_decide; try done; exfalso; set_solver.
Qed.

Lemma elem_of_handles_of ts h :
  h ∈ handles_of ts ↔ ∃ tp subs, (tp, subs) ∈ ts ∧ is_Some (subs !! h).
Proof. drop_order.
  unfold handles_of. rewrite elem_of_union_list. split.
  - intros (X & HX & Hh). apply list_elem_of_fmap in HX as ([tp subs] & -> & Hin).
    exists tp, subs. split; [done|]. by apply elem_of_dom.
  - intros (tp & subs & Hin & Hh). exists (dom subs). split; [|by apply elem_of_dom].
    apply list_elem_of_fmap. by exists (tp, subs).
Qed.

Lemma range_topics_handles j h :
  h ∈ handles_of (range_topics (env j) (topics j)) ↔ is_registered j h.
Proof.
  rewrite elem_of_handles_of. unfold is_registered, registered.
  split.
  - intros (tp & subs & Hin & [c Hc]). exists tp, c.
    rewrite range_topics_perm in Hin. apply elem_of_map_to_list in Hin.
    by rewrite Hin.
  - intros (tp & c & Hr). destruct (topics j !! tp) as [subs|] eqn:E; [|done].
    exists tp, subs. split; [|by exists c].
    rewrite range_topics_perm. by apply elem_of_map_to_list.
Qed.

(** [Joe.closeSubscribers] on a table whose handles are open: it returns,
    having called [close] once on every registered handle and on nothing
    else. *)
Lemma closeSubscribers_run j :
  registered_open j →
  ∃ j', closeSubscribers j = (Val tt, j') ∧
        (∀ h, is_registered j h →
              closes h (trace j') = S (closes h (trace j)) ∧
              ∃ ch, chans j' !! h = Some ch ∧ chan_closed ch = true) ∧
        (∀ h, ¬ is_registered j h →
              closes h (trace j') = closes h (trace j) ∧ chans j' !! h = chans j !! h).
Proof.
  intros Hopen. unfold closeSubscribers, bind, get.
  destruct (closeSubscribers_topics_run (range_topics (env j) (topics j)) ∅ j)
    as (j' & Hrun & Hcl & Hch).
  { intros h Hh _. apply Hopen. by apply range_topics_handles. }
  exists j'. split; [done|]. split; intros h Hh.
  - rewrite Hcl, Hch. clear Hcl Hch.
    case_decide as Hd.
    2:{ exfalso. apply Hd, elem_of_difference.
        split; [by apply range_topics_handles | set_solver]. }
    split; [lia|]. destruct (Hopen h Hh) as (ch & -> & _).
    by exists (chan_closed_of ch).
  - rewrite Hcl, Hch. clear Hcl Hch.
    case_decide as Hd; [|split; [lia | done]].
    exfalso. apply elem_of_difference in Hd as [Hin _].
    by apply Hh, range_topics_handles.
Qed.

(** The deferred calls on a table whose handles are open. *)
Lemma deferred_run normal j :
  registered_open j →
  topics (deferred normal j) = topics j ∧
  (∀ h, is_registered j h →
        closes h (trace (deferred normal j)) = S (closes h (trace j)) ∧
        ∃ ch, chans (deferred normal j) !! h = Some ch ∧ chan_closed ch = true) ∧
  (∀ h, ¬ is_registered j h →
        closes h (trace (deferred normal j)) = closes h (trace j)).
Proof.
  intros Hopen. unfold deferred, stopGCSignal, modify.
  set (j1 := log EvStopGC (set_gcTicker (ticker_stop (gcTicker j)) j)).
  assert (preserves (keeps topics) closeSubscribers) as Hk
    by (apply preserves_closeSubscribers; try apply _; done).
  specialize (Hk j1).
  destruct (closeSubscribers_run j1) as (j2 & Hrun & Hreg & Hnot); [done|].
  rewrite Hrun in *. simpl in *. split; [done|]. split; intros h Hh.
  - destruct (Hreg h Hh) as [Hcl Hch]. by rewrite closes_cons, Hcl.
  - destruct (Hnot h Hh) as [Hcl _]. by rewrite closes_cons, Hcl.
Qed.

(** ** The publish case *)

Lemma sent_to_app h tr1 tr2 : sent_to h (tr1 ++ tr2) = sent_to h tr1 ++ sent_to h tr2.
Proof. drop_order. apply omap_app. Qed.

Lemma failures_app tr1 tr2 : failures (tr1 ++ tr2) = failures tr1 ++ failures tr2.
Proof. drop_order. apply omap_app. Qed.

Lemma topic_lookup_registered tp j h : topic_lookup tp j !! h = registered j tp h.
Proof. drop_order. unfold topic_lookup, registered. by destruct (topics j !! tp). Qed.

Lemma publish_inv_init j0 ts m : publish_inv j0 ts m ∅ ∅ j0.
Proof. drop_order.
  split; [|split; [|split]].
  - intros tp h. by rewrite dom_empty_L, decide_False.
  - intros h. by rewrite lookup_empty.
  - set_solver.
  - exists []. split; [done|]. split; [|split].
    + intros h Hh. exfalso. set_solver.
    + done.
    + intros h e. rewrite lookup_empty. split; [|done]. by intros ?%elem_of_nil.
Qed.

(** The sink of [h] took the message: [h] joins [seen]. *)
Lemma publish_inv_delivered j0 ts m seen F j j2 tp h c evs :
  publish_inv j0 ts m seen F j →
  h ∉ seen → h ∉ dom F → tp ∈ ts → registered j0 tp h = Some c →
  topics j2 = topics j → chans j2 = chans j → trace j2 = evs ++ trace j →
  sent_to h evs = [(c, m)] → (∀ h', h' ≠ h → sent_to h' evs = []) →
  failures evs = [] →
  publish_inv j0 ts m ({[h]} ∪ seen) F j2.
Proof. drop_order.
  intros (Hreg & Hch & Hdisj & new & Htr & Hin & Hout & Hfail)
    Hseen HF Htp Hc Ht2 Hc2 Htr2 Hs Hs' Hf.
  split; [|split; [|split]].
  - intros tp' h'. unfold registered. rewrite Ht2. apply Hreg.
  - intros h'. rewrite Hc2. apply Hch.
  - clear -Hdisj HF. set_solver.
  - exists (evs ++ new). split; [by rewrite Htr2, Htr, app_assoc|].
    split; [|split].
    + intros h' Hh'. rewrite sent_to_app.
      destruct (decide (h' = h)) as [->|Hne].
      * exists tp, c. split; [done|]. split; [done|]. rewrite Hs, Hout; [done|].
        clear -Hseen HF. set_solver.
      * rewrite Hs' by done. apply Hin. clear -Hh' Hne. set_solver.
    + intros h' Hh'. rewrite sent_to_app, Hs', Hout; [done|..];
        clear -Hh'; set_solver.
    + intros h' e. rewrite failures_app, Hf. apply Hfail.
Qed.

(** The sink of [h] failed with [e]: [h] has the error on its channel, is
    closed, and is gone from every topic. *)
Lemma publish_inv_failed j0 ts m seen F j j2 tp h c e evs :
  publish_inv j0 ts m seen F j →
  h ∉ seen → h ∉ dom F → tp ∈ ts → registered j0 tp h = Some c →
  topics j2 = delete h <$> topics j →
  chans j2 = <[h := Chan (Some e) true]> (chans j) →
  trace j2 = evs ++ trace j →
  sent_to h evs = [(c, m)] → (∀ h', h' ≠ h → sent_to h' evs = []) →
  failures evs = [(h, e)] →
  publish_inv j0 ts m seen (<[h := e]> F) j2.
Proof. drop_order.
  intros (Hreg & Hch & Hdisj & new & Htr & Hin & Hout & Hfail)
    Hseen HF Htp Hc Ht2 Hc2 Htr2 Hs Hs' Hf.
  apply not_elem_of_dom in HF as HFn.
  split; [|split; [|split]].
  - intros tp' h'. unfold registered. rewrite Ht2, lookup_fmap.
    rewrite dom_insert_L.
    specialize (Hreg tp' h'). unfold registered in Hreg. revert Hreg.
    destruct (topics j !! tp') as [subs|] eqn:E; simpl; intros Hreg.
    + destruct (decide (h' = h)) as [->|Hne].
      * rewrite lookup_delete_eq. rewrite decide_True; [done|].
        apply elem_of_union_l. by apply elem_of_singleton.
      * rewrite lookup_delete_ne by done. rewrite Hreg.
        apply decide_ext. clear -Hne. set_solver.
    + rewrite Hreg. destruct (decide (h' ∈ dom F)) as [Hd|Hd].
      * rewrite decide_True; [done|]. by apply elem_of_union_r.
      * destruct (decide (h' ∈ {[h]} ∪ dom F)); [by rewrite <-Hreg | done].
  - intros h'. rewrite Hc2. destruct (decide (h' = h)) as [->|Hne].
    + by rewrite !lookup_insert_eq.
    + rewrite !lookup_insert_ne by done. apply Hch.
  - rewrite dom_insert_L. clear -Hdisj Hseen. set_solver.
  - exists (evs ++ new). split; [by rewrite Htr2, Htr, app_assoc|].
    rewrite dom_insert_L. split; [|split].
    + intros h' Hh'. rewrite sent_to_app.
      destruct (decide (h' = h)) as [->|Hne].
      * exists tp, c. split; [done|]. split; [done|]. rewrite Hs, Hout; [done|].
        clear -Hseen HF. set_solver.
      * rewrite Hs' by done. apply Hin. clear -Hh' Hne. set_solver.
    + intros h' Hh'. rewrite sent_to_app, Hs', Hout; [done|..];
        clear -Hh'; set_solver.
    + intros h' e'. rewrite failures_app, Hf. simpl.
      rewrite elem_of_cons, Hfail.
      destruct (decide (h' = h)) as [->|Hne].
      * rewrite lookup_insert_eq, HFn. clear. naive_solver.
      * rewrite lookup_insert_ne by done. clear -Hne. naive_solver.
Qed.

Lemma chan_send_run sub e j :
  chans j !! sub = Some chan_make →
  chan_send sub e j =
    (Val tt, set_chans <[sub := Chan (Some e) false]> (log (EvChanSend sub e) j)).
Proof. drop_order. intros Hc. unfold chan_send. by rewrite Hc. Qed.

Lemma bind_val {A B} (c : M A) (k : A → M B) j a j' :
  c j = (Val a, j') → bind c k j = k a j'.
Proof. drop_order. intros Hc. unfold bind. by rewrite Hc. Qed.

(** [Send], then [Flush] when [Send] succeeded: one [Send] on behalf of
    [h], and the error of whichever call failed. *)
Lemma send_flush_run {B} h c m (k : error → M B) j :
  ∃ err j2,
    bind (call_Send h c m)
      (λ err, bind (match err with
                    | None => call_Flush h c
                    | Some _ => ret err
                    end) k) j = k err j2 ∧
    topics j2 = topics j ∧ chans j2 = chans j ∧
    ∃ evs, trace j2 = evs ++ trace j ∧
           sent_to h evs = [(c, m)] ∧
           (∀ h', h' ≠ h → sent_to h' evs = []) ∧
           failures evs = match err with Some e => [(h, e)] | None => [] end.
Proof. drop_order.
  unfold bind at 1, call_Send.
  destruct (Send c m (env j)) as [[e|] e1].
  - exists (Some e), (log (EvSend h c m (Some e)) (set_env e1 j)).
    split; [done|]. split; [done|]. split; [done|].
    exists [EvSend h c m (Some e)]. simpl. split; [done|].
    rewrite decide_True by done. split; [done|]. split; [|done].
    intros h' Hne. by rewrite decide_False.
  - unfold bind at 1, call_Flush. simpl.
    destruct (Flush c e1) as [r2 e2].
    exists r2, (log (EvFlush h c r2) (set_env e2 (log (EvSend h c m None) (set_env e1 j)))).
    split; [done|]. split; [done|]. split; [done|].
    exists [EvFlush h c r2; EvSend h c m None]. simpl. split; [done|].
    rewrite decide_True by done. split; [by destruct r2|]. split; [|by destruct r2].
    intros h' Hne. rewrite decide_False by done. by destruct r2.
Qed.

(** The failure branch: the error goes on the channel of [h], then
    [removeSubscriber] deletes [h] everywhere and closes the channel. *)
Lemma send_remove_run {B} h e (k : M B) j :
  chans j !! h = Some chan_make →
  ∃ j4,
    bind (chan_send h e) (λ _, bind (removeSubscriber h) (λ _, k)) j = k j4 ∧
    topics j4 = delete h <$> topics j ∧
    chans j4 = <[h := Chan (Some e) true]> (chans j) ∧
    trace j4 = [EvChanClose h; EvChanSend h e] ++ trace j.
Proof. drop_order.
  intros Hc. eexists. split.
  - rewrite (bind_val _ _ _ _ _ (chan_send_run h e j Hc)).
    unfold removeSubscriber.
    unfold bind at 1. unfold bind at 1. unfold modify.
    erewrite chan_close_run; [reflexivity | simpl; apply lookup_insert_eq | done].
  - simpl. by rewrite insert_insert_eq.
Qed.

(** The inner loop keeps the invariant, returns, and leaves every
    handle of [subs] in [seen] or removed. *)
Lemma publish_subs_run j0 ts m tp subs :
  wf j0 → tp ∈ ts →
  ∀ seen F j,
    publish_inv j0 ts m seen F j →
    (∀ h c, (h, c) ∈ subs → registered j0 tp h = Some c) →
    ∃ seen' F' j',
      publish_subs tp m subs seen j = (Val seen', j') ∧
      publish_inv j0 ts m seen' F' j' ∧
      seen ⊆ seen' ∧ dom F ⊆ dom F' ∧
      ∀ h, h ∈ subs.*1 → h ∈ seen' ∪ dom F'.
Proof. drop_order.
  intros Hwf Htp. induction subs as [|[h c] subs IH]; intros seen F j Hinv Hsubs; simpl.
  - exists seen, F, j. repeat (split; [done|]). intros h Hh. by apply elem_of_nil in Hh.
  - assert (registered j0 tp h = Some c) as Hc by (apply Hsubs; left).
    assert (∀ h' c', (h', c') ∈ subs → registered j0 tp h' = Some c') as Hsubs'
      by (intros; apply Hsubs; by right).
    (* what remains to show once the rest of the loop has run *)
    assert (∀ seen1 F1 j1,
              publish_inv j0 ts m seen1 F1 j1 → seen ⊆ seen1 → dom F ⊆ dom F1 →
              h ∈ seen1 ∪ dom F1 →
              ∃ seen' F' j',
                publish_subs tp m subs seen1 j1 = (Val seen', j') ∧
                publish_inv j0 ts m seen' F' j' ∧
                seen ⊆ seen' ∧ dom F ⊆ dom F' ∧
                ∀ h', h' ∈ h :: subs.*1 → h' ∈ seen' ∪ dom F') as Hrest.
    { intros seen1 F1 j1 Hinv1 Hs1 HF1 Hh1.
      destruct (IH seen1 F1 j1 Hinv1 Hsubs') as (seen' & F' & j' & Hrun & Hinv' & Hs & HF & Hall).
      exists seen', F', j'. split; [done|]. split; [done|].
      split; [by etrans|]. split; [by etrans|].
      intros h' [->|Hh']%elem_of_cons; [|by apply Hall].
      clear -Hh1 Hs HF. set_solver. }
    pose proof Hinv as (Hreg & Hch & Hdisj & _).
    unfold bind at 1, get. rewrite topic_lookup_registered.
    destruct (decide (is_Some (registered j tp h))) as [Hpres|Habs].
    + assert (h ∉ dom F) as HF.
      { intros HF. rewrite Hreg, decide_True in Hpres by done. by destruct Hpres. }
      destruct (decide (h ∈ seen)) as [Hs|Hs].
      { apply (Hrest seen F j); [done..|]. by apply elem_of_union_l. }
      assert (chans j !! h = Some chan_make) as Hopen.
      { rewrite Hch. apply not_elem_of_dom in HF. rewrite HF. by eapply Hwf. }
      destruct (send_flush_run h c m
                  (λ err, match err with
                          | Some e => bind (chan_send h e) (λ _,
                                        bind (removeSubscriber h) (λ _,
                                          publish_subs tp m subs seen))
                          | None => publish_subs tp m subs ({[h]} ∪ seen)
                          end) j)
        as (err & j2 & -> & Ht2 & Hc2 & evs & Htr2 & Hs1 & Hs2 & Hf).
      destruct err as [e|].
      * destruct (send_remove_run h e (publish_subs tp m subs seen) j2)
          as (j4 & -> & Ht4 & Hc4 & Htr4); [by rewrite Hc2|].
        apply (Hrest seen (<[h := e]> F)).
        -- apply (publish_inv_failed j0 ts m seen F j j4 tp h c e
                    ([EvChanClose h; EvChanSend h e] ++ evs)); try done.
           ++ by rewrite Ht4, Ht2.
           ++ by rewrite Hc4, Hc2.
           ++ by rewrite Htr4, Htr2, app_assoc.
        -- done.
        -- rewrite dom_insert_L. clear. set_solver.
        -- rewrite dom_insert_L. clear. set_solver.
      * apply (Hrest ({[h]} ∪ seen) F).
        -- by apply (publish_inv_delivered j0 ts m seen F j j2 tp h c evs).
        -- clear. set_solver.
        -- done.
        -- clear. set_solver.
    + apply (Hrest seen F j); [done..|].
      apply elem_of_union_r. destruct (decide (h ∈ dom F)) as [|HF]; [done|].
      exfalso. apply Habs. rewrite Hreg, decide_False by done. by rewrite Hc.
Qed.

(** The outer loop: after it, every handle that was registered under one
    of the topics [ts] is in [seen] or removed. *)
Lemma publish_topics_run j0 ts0 m ts :
  wf j0 → ts ⊆ ts0 →
  ∀ seen F j,
    publish_inv j0 ts0 m seen F j →
    ∃ seen' F' j',
      publish_topics m ts seen j = (Val tt, j') ∧
      publish_inv j0 ts0 m seen' F' j' ∧
      seen ⊆ seen' ∧ dom F ⊆ dom F' ∧
      ∀ tp h c, tp ∈ ts → registered j0 tp h = Some c → h ∈ seen' ∪ dom F'.
Proof.
  intros Hwf. induction ts as [|tp ts IH]; intros Hts seen F j Hinv; simpl.
  - exists seen, F, j. repeat (split; [done|]).
    intros tp h c Htp. by apply elem_of_nil in Htp.
  - pose proof Hinv as (Hreg & _).
    assert (tp ∈ ts0) as Htp0 by (apply Hts; left).
    assert (ts ⊆ ts0) as Hts' by (intros tp' Htp'; apply Hts; by right).
    unfold bind at 1, get.
    destruct (publish_subs_run j0 ts0 m tp (range_subs (env j) (topic_lookup tp j))
                Hwf Htp0 seen F j Hinv)
      as (seen1 & F1 & j1 & Hrun1 & Hinv1 & Hs1 & HF1 & Hall1).
    { intros h c Hin. rewrite range_subs_perm in Hin.
      apply elem_of_map_to_list in Hin. rewrite topic_lookup_registered, Hreg in Hin.
      by case_decide. }
    rewrite (bind_val _ _ _ _ _ Hrun1).
    destruct (IH Hts' seen1 F1 j1 Hinv1)
      as (seen' & F' & j' & Hrun & Hinv' & Hs & HF & Hall).
    exists seen', F', j'. split; [done|]. split; [done|].
    split; [by etrans|]. split; [by etrans|].
    intros tp' h c [->|Htp]%elem_of_cons Hc; [|by eapply Hall].
    assert (h ∈ seen1 ∪ dom F1) as Hh; [|clear -Hh Hs HF; set_solver].
    destruct (decide (h ∈ dom F)) as [Hd|Hd]; [clear -Hd HF1; set_solver|].
    apply Hall1. apply list_elem_of_fmap. exists (h, c). split; [done|].
    rewrite range_subs_perm. apply elem_of_map_to_list.
    by rewrite topic_lookup_registered, Hreg, decide_False.
Qed.

(** The publish case on a well-formed state, when [Put] returns: it
    returns, in a state that satisfies the invariant from the state after
    [Put], with every handle registered under a topic of the message
    delivered to or removed. *)
Lemma publish_run msg toDispatch env' j :
  wf j →
  Put replay (message msg) (msg_topics msg) (env j) = (Some toDispatch, env') →
  let j0 := log (EvPut (message msg) (msg_topics msg)) (set_env env' j) in
  ∃ seen F j',
    publish msg j = (Val tt, j') ∧
    publish_inv j0 (msg_topics msg) toDispatch seen F j' ∧
    ∀ tp h c, tp ∈ msg_topics msg → registered j tp h = Some c → h ∈ seen ∪ dom F.
Proof.
  intros Hwf HPut j0.
  destruct (publish_topics_run j0 (msg_topics msg) toDispatch (msg_topics msg) Hwf
              (reflexivity _) ∅ ∅ j0 (publish_inv_init j0 _ toDispatch))
    as (seen & F & j' & Hrun & Hinv & _ & _ & Hall).
  exists seen, F, j'. split; [|done].
  unfold publish. rewrite (bind_val _ _ j toDispatch j0); [done|].
  unfold call_Put. by rewrite HPut.
Qed.

(** ** Well-formed states *)

Lemma wfb_wf j : wfb j = true → wf j.
Proof. drop_order.
  intros Hb%bool_decide_eq_true tp h c Hr. unfold registered in Hr.
  destruct (topics j !! tp) as [subs|] eqn:E; [|done].
  by apply (Hb tp subs E h c).
Qed.

Lemma wf_registered_open j : wf j → registered_open j.
Proof. drop_order.
  intros Hwf h (tp & c & Hr). exists chan_make. split; [by eapply Hwf | done].
Qed.

(** After [Shutdown], [j.done] is closed. *)
Lemma Shutdown_jdone ctx p j : jdone (Shutdown ctx p j).2 = true.
Proof. drop_order.
  unfold Shutdown. destruct (jdone (init j)) eqn:Hd; [done|].
  assert (jdone (start_step ReqDone (set_jdone true (init j))) = true) as Hs.
  { assert (keeps jdone (set_jdone true (init j))
              (start_step ReqDone (set_jdone true (init j)))) as Hk; [|by rewrite Hk].
    apply start_step_related; try apply _; done. }
  destruct ctx as [e|]; [destruct p|]; simpl;
    repeat (case_match; simpl); done.
Qed.

(** The unwinding closes [j.closed] and ends the loop. *)
Lemma deferred_jclosed normal j : jclosed (deferred normal j) = true.
Proof. drop_order.
  unfold deferred. destruct (stopGCSignal j) as [o1 j1].
  by destruct (closeSubscribers j1) as [o2 j2].
Qed.

Lemma deferred_loop normal j :
  loop (deferred normal j) = Returned ∨ loop (deferred normal j) = Panicked.
Proof. drop_order.
  unfold deferred. destruct (stopGCSignal j) as [o1 j1].
  destruct (closeSubscribers j1) as [o2 j2]. simpl. case_match; auto.
Qed.

Lemma deferred_gcTicker normal j : gcTicker (deferred normal j) ≠ Ticking.
Proof. drop_order.
  unfold deferred.
  assert (preserves (keeps gcTicker) closeSubscribers) as Hk
    by (apply preserves_closeSubscribers; try apply _; done).
  unfold stopGCSignal, modify.
  specialize (Hk (log EvStopGC (set_gcTicker (ticker_stop (gcTicker j)) j))).
  destruct (closeSubscribers _) as [o2 j2]. simpl in *.
  rewrite Hk. apply ticker_stop_not_Ticking.
Qed.

Lemma handle_keeps_loop r j : loop (handle r j).2 = loop j.
Proof. drop_order.
  assert (r = ReqGC ∨ r ≠ ReqGC) as [->|Hr] by (destruct r; auto).
  - assert (preserves (keeps loop) (gc;;; ret false)) as Hh; [|apply Hh].
    apply preserves_bind; [apply _ | | intros _; apply preserves_ret; apply _].
    apply preserves_bind; [apply _ | | ].
    + intros j'. unfold call_gcFn. destruct gcFn as [f|]; [|done].
      by destruct (f (env j')).
    + intros [e|]; [by apply preserves_modify | apply preserves_ret; apply _].
  - apply (preserves_handle (keeps loop)); try apply _; done.
Qed.

(** [init] starts the loop once; the loop does not go back to
    [NotStarted]. *)
Lemma init_started j : loop (init j) ≠ NotStarted.
Proof. drop_order. unfold init. by destruct (loop j) eqn:E; simpl; rewrite ?E. Qed.

Lemma init_idem j : loop j ≠ NotStarted → init j = j.
Proof. drop_order. unfold init. by destruct (loop j). Qed.

Lemma start_step_started r j : loop j ≠ NotStarted → loop (start_step r j) ≠ NotStarted.
Proof. drop_order.
  intros Hj. unfold start_step. destruct (loop j) eqn:El; try done; try by rewrite El.
  destruct (ready r j); [|by rewrite El].
  pose proof (handle_keeps_loop r j) as Hh.
  destruct (handle r j) as [[[]| |] j']; simpl in *.
  - by destruct (deferred_loop true j') as [-> | ->].
  - by rewrite Hh, El.
  - by destruct (deferred_loop false j') as [-> | ->].
  - done.
Qed.

Lemma start_step_ReqDone j :
  loop j = Looping → jdone j = true → start_step ReqDone j = deferred true j.
Proof. drop_order. intros Hl Hd. unfold start_step. by rewrite Hl; simpl; rewrite Hd. Qed.

Lemma Shutdown_started ctx p j : loop (Shutdown ctx p j).2 ≠ NotStarted.
Proof. drop_order.
  pose proof (init_started j) as Hi.
  pose proof (start_step_started ReqDone (set_jdone true (init j)) Hi) as Hs.
  unfold Shutdown. destruct (jdone (init j)); [done|].
  destruct ctx as [e|]; [destruct p|]; simpl; repeat (case_match; simpl); done.
Qed.

(** ** [wf] is an invariant of the running loop *)

Lemma publish_inv_wf j0 ts m seen F j : wf j0 → publish_inv j0 ts m seen F j → wf j.
Proof. drop_order.
  intros Hwf (Hreg & Hch & _) tp h c Hr.
  rewrite Hreg in Hr. case_decide as Hd; [done|].
  rewrite Hch. apply not_elem_of_dom in Hd. rewrite Hd. by eapply Hwf.
Qed.

Lemma registered_delete sub j tp h :
  registered (set_topics (fmap (delete sub)) j) tp h =
  if decide (h = sub) then None else registered j tp h.
Proof. drop_order.
  unfold registered. simpl. rewrite lookup_fmap.
  destruct (topics j !! tp) as [subs|]; simpl; [|by case_decide].
  case_decide as Hd; [subst; apply lookup_delete_eq | by apply lookup_delete_ne].
Qed.

(** A case that returns to the [select] leaves the state well-formed. *)
Lemma handle_wf r j j' :
  wf j → request_fresh r j → handle r j = (Val false, j') → wf j'.
Proof.
  intros Hwf Hfresh Hrun. destruct r as [msg|sb|sub| |]; simpl in Hrun.
  - destruct (Put replay (message msg) (msg_topics msg) (env j)) as [[m|] e] eqn:HPut.
    + destruct (publish_run msg m e j Hwf HPut) as (seen & F & j2 & Hp & Hinv & _).
      rewrite (bind_val _ _ _ _ _ Hp) in Hrun. injection Hrun as <-.
      eapply publish_inv_wf; [|exact Hinv]. exact Hwf.
    + unfold bind, publish, bind, call_Put in Hrun. by rewrite HPut in Hrun.
  - destruct Hfresh as [Hc Hnot].
    unfold bind at 1, subscribe, bind at 1, call_Replay in Hrun.
    destruct (Replay replay (sub_Subscription sb) (env j)) as [[[err|]|] e]; [| |done].
    + unfold bind, chan_send in Hrun. simpl in Hrun. rewrite Hc in Hrun.
      simpl in Hrun. unfold chan_close in Hrun. simpl in Hrun.
      rewrite lookup_insert_eq in Hrun. simpl in Hrun. injection Hrun as <-.
      intros tp h c Hr. simpl.
      assert (h ≠ sub_done sb) as Hne by (intros ->; apply Hnot; by exists tp, c).
      rewrite !lookup_insert_ne by done. by eapply Hwf.
    + rewrite register_run in Hrun. injection Hrun as <-.
      intros tp h c Hr. unfold registered in Hr. simpl in *.
      rewrite register_topics_lookup in Hr.
      case_decide as Hd; [by destruct Hd as [-> _] | by eapply Hwf].
  - unfold bind at 1, removeSubscriber, bind at 1, modify, chan_close in Hrun.
    simpl in Hrun.
    destruct (chans j !! sub) as [ch|] eqn:E; [|done].
    destruct (chan_close_op ch); try done. injection Hrun as <-.
    intros tp h c Hr.
    change (registered (set_topics (fmap (delete sub)) j) tp h = Some c) in Hr.
    rewrite registered_delete in Hr. case_decide as Hd; [done|].
    simpl. rewrite lookup_insert_ne by done. by eapply Hwf.
  - unfold bind at 1, gc, bind at 1, call_gcFn in Hrun.
    destruct gcFn as [f|]; [|done]. destruct (f (env j)) as [[err|] e];
      injection Hrun as <-; exact Hwf.
  - done.
Qed.

(** While the loop runs, handling a request keeps the state well-formed. *)
Lemma start_step_wf r j :
  wf j → request_fresh r j → loop (start_step r j) = Looping → wf (start_step r j).
Proof.
  intros Hwf Hfresh. unfold start_step.
  destruct (loop j) eqn:El; try (by rewrite El).
  destruct (ready r j); [|done].
  destruct (handle r j) as [[[]| |] j'] eqn:Hrun.
  - intros Hl. by destruct (deferred_loop true j') as [H|H]; rewrite H in Hl.
  - intros _. by eapply handle_wf.
  - intros Hl. by destruct (deferred_loop false j') as [H|H]; rewrite H in Hl.
  - done.
Qed.

(** [Subscribe] makes a fresh channel, so the request it sends is fresh,
    and the state stays well-formed while the loop runs. *)
Lemma Subscribe_enter_wf sb p j :
  (loop j = Looping → wf j) →
  loop (Subscribe_enter sb p j).2 = Looping → wf (Subscribe_enter sb p j).2.
Proof.
  intros Hwf. unfold Subscribe_enter.
  set (j1 := init j). set (h := fresh (dom (chans j1))).
  set (j2 := set_chans <[h := chan_make]> j1).
  destruct (decide (loop j1 = Looping)) as [Hl1|Hl1].
  2:{ (* the loop has ended: nothing is handled any more *)
      assert (start_step (ReqSubscription (mkSub h sb)) j2 = j2) as ->.
      { unfold start_step. change (loop j2) with (loop j1).
        by destruct (loop j1). }
      change (loop j2) with (loop j1).
      destruct (jdone j2), (bool_decide (loop j1 = Looping)), p; simpl; done. }
  assert (wf j1) as Hwf1.
  { unfold j1, init in *. destruct (loop j) eqn:El; try done; try congruence.
    by apply Hwf. }
  assert (chans j1 !! h = None) as Hh.
  { apply not_elem_of_dom. apply is_fresh. }
  assert (wf j2) as Hwf2.
  { intros tp h' c Hr. simpl. specialize (Hwf1 tp h' c Hr).
    rewrite lookup_insert_ne; [done|]. intros <-. by rewrite Hh in Hwf1. }
  assert (request_fresh (ReqSubscription (mkSub h sb)) j2) as Hfresh.
  { split; [simpl; apply lookup_insert_eq|].
    intros (tp & c & Hr). specialize (Hwf1 tp h c Hr). by rewrite Hh in Hwf1. }
  assert (loop (start_step (ReqSubscription (mkSub h sb)) j2) = Looping →
          wf (start_step (ReqSubscription (mkSub h sb)) j2)) as Hstep
    by by apply start_step_wf.
  destruct (jdone j2), (bool_decide (loop j2 = Looping)); simpl; try done.
  destruct p; simpl; done.
Qed.

Lemma init_wf j : (loop j = Looping → wf j) → loop (init j) = Looping → wf (init j).
Proof. drop_order.
  intros Hwf. unfold init. destruct (loop j) eqn:El; simpl; rewrite ?El; done.
Qed.

(** Receiving from a channel leaves the channels of the registered
    handles alone: on those a receive blocks. *)
Lemma chan_recv_wf sdone v c j :
  wf j → chans j !! sdone ≫= chan_recv_op = Some (v, c) →
  wf (set_chans <[sdone := c]> j).
Proof. drop_order.
  intros Hwf Hrecv tp h c' Hr. simpl.
  specialize (Hwf tp h c' Hr).
  rewrite lookup_insert_ne; [done|]. intros <-. by rewrite Hwf in Hrecv.
Qed.

Lemma start_step_Looping r j : loop (start_step r j) = Looping → loop j = Looping.
Proof. drop_order.
  unfold start_step. destruct (loop j) eqn:El; try done; congruence.
Qed.

(** Whatever is called on the provider, the state is well-formed for as
    long as the loop runs. *)
Lemma run_call_wf c j :
  (loop j = Looping → wf j) → loop (run_call c j) = Looping → wf (run_call c j).
Proof.
  intros Hwf. destruct c as [sub p|sdone ctx_done p|sdone p|msg ts p|ctx p|]; simpl.
  - by apply Subscribe_enter_wf.
  - unfold Subscribe_wait.
    destruct (chans j !! sdone ≫= chan_recv_op) as [[v c]|] eqn:Hrecv;
      destruct ctx_done; try destruct p; simpl; try done;
      intros Hl; by eapply chan_recv_wf; [apply Hwf|].
  - unfold Subscribe_leave.
    assert (loop (start_step (ReqUnsubscription sdone) j) = Looping →
            wf (start_step (ReqUnsubscription sdone) j)) as Hun.
    { intros Hl. apply start_step_wf; [|done..].
      by eapply Hwf, start_step_Looping. }
    destruct (chans j !! sdone ≫= chan_recv_op) as [[v c]|] eqn:Hrecv;
      destruct (bool_decide (loop j = Looping)); try destruct p; simpl; try done;
      intros Hl; by eapply chan_recv_wf; [apply Hwf|].
  - unfold Publish. destruct ts as [|tp ts]; [done|].
    pose proof (init_wf j Hwf) as Hi.
    assert (loop (start_step (ReqMessage (mkMsg msg (tp :: ts))) (init j)) = Looping →
            wf (start_step (ReqMessage (mkMsg msg (tp :: ts))) (init j))) as Hst.
    { intros Hl. apply start_step_wf; [|done..].
      by eapply Hi, start_step_Looping. }
    destruct (bool_decide (loop (init j) = Looping)), (jdone (init j));
      try destruct p; simpl; done.
  - unfold Shutdown. pose proof (init_wf j Hwf) as Hi.
    destruct (jdone (init j)) eqn:Hd; [done|].
    assert (loop (start_step ReqDone (set_jdone true (init j))) = Looping →
            wf (start_step ReqDone (set_jdone true (init j)))) as Hst.
    { intros Hl. apply start_step_wf; [|done..].
      apply Hi. by apply start_step_Looping in Hl. }
    destruct ctx as [e|]; [destruct p|]; simpl;
      repeat (case_match; simpl); try done.
  - intros Hl. apply start_step_wf; [|done..].
    by eapply Hwf, start_step_Looping.
Qed.

Lemma run_calls_wf cs j :
  (loop j = Looping → wf j) →
  loop (run_calls cs j) = Looping → wf (run_calls cs j).
Proof.
  revert j. induction cs as [|c cs IH]; intros j Hwf; simpl; [done|].
  apply IH. by apply run_call_wf.
Qed.

(** ** The cases of the loop, as equations *)

(** The subscribe case when [Replay] returns nil. *)
Lemma start_step_subscribe_ok sb env' j :
  loop j = Looping →
  Replay replay (sub_Subscription sb) (env j) = (Some None, env') →
  start_step (ReqSubscription sb) j =
    set_topics (register_topics (sub_done sb) (Client (sub_Subscription sb))
                  (Topics (sub_Subscription sb)))
      (log (EvReplay (sub_Subscription sb)) (set_env env' j)).
Proof. drop_order.
  intros Hl Hr. unfold start_step. rewrite Hl. simpl.
  unfold bind at 1, subscribe, bind at 1, call_Replay. rewrite Hr.
  by rewrite register_run.
Qed.

(** The subscribe case when [Replay] returns an error, on a channel fresh
    from [make]. *)
Lemma start_step_subscribe_err sb e env' j :
  loop j = Looping →
  Replay replay (sub_Subscription sb) (env j) = (Some (Some e), env') →
  chans j !! sub_done sb = Some chan_make →
  start_step (ReqSubscription sb) j =
    set_chans (λ m, <[sub_done sb := Chan (Some e) true]> m)
      (log (EvChanClose (sub_done sb))
         (log (EvChanSend (sub_done sb) e)
            (log (EvReplay (sub_Subscription sb)) (set_env env' j)))).
Proof. drop_order.
  intros Hl Hr Hc. unfold start_step. rewrite Hl. simpl.
  unfold bind at 1, subscribe, bind at 1, call_Replay. rewrite Hr.
  unfold bind, chan_send. simpl. rewrite Hc. simpl.
  unfold chan_close. simpl. rewrite lookup_insert_eq. simpl.
  unfold set_chans. simpl. by rewrite insert_insert_eq.
Qed.

(** The unsubscribe case on a channel that is not closed. *)
Lemma start_step_unsubscribe h ch j :
  loop j = Looping → chans j !! h = Some ch → chan_closed ch = false →
  start_step (ReqUnsubscription h) j =
    set_chans <[h := chan_closed_of ch]>
      (log (EvChanClose h) (set_topics (fmap (delete h)) j)).
Proof. drop_order.
  intros Hl Hc Ho. unfold start_step. rewrite Hl. simpl.
  unfold bind at 1, removeSubscriber, bind at 1, modify.
  by rewrite (chan_close_run h ch).
Qed.

(** A panic unwinds the loop. *)
Lemma deferred_false_loop j : loop (deferred false j) = Panicked.
Proof. drop_order.
  unfold deferred. destruct (stopGCSignal j) as [o1 j1].
  by destruct (closeSubscribers j1) as [[| |] j2].
Qed.

(** [Subscribe] on a provider that runs and has not been stopped: the
    request reaches the loop. *)
Lemma Subscribe_enter_run sb p j :
  loop j = Looping → jdone j = false →
  Subscribe_enter sb p j =
    (inr (fresh (dom (chans j))),
     start_step (ReqSubscription (mkSub (fresh (dom (chans j))) sb))
       (set_chans <[fresh (dom (chans j)) := chan_make]> j)).
Proof. drop_order.
  intros Hl Hd. unfold Subscribe_enter. rewrite init_idem by by rewrite Hl.
  simpl. rewrite Hd, Hl. by rewrite bool_decide_eq_true_2.
Qed.

(** A handle that [Subscribe] is about to make is not in the table. *)
Lemma fresh_not_registered j tp :
  wf j → registered j tp (fresh (dom (chans j))) = None.
Proof. drop_order.
  intros Hwf. destruct (registered j tp _) as [c|] eqn:Hr; [|done].
  apply Hwf in Hr. assert (chans j !! fresh (dom (chans j)) = None) as Hn.
  { apply not_elem_of_dom, is_fresh. }
  by rewrite Hn in Hr.
Qed.

Lemma register_topics_dom_eq sub c ts m :
  dom (register_topics sub c ts m) = dom m ∪ list_to_set ts.
Proof. drop_order.
  revert m. induction ts as [|tp ts IH]; intros m; simpl.
  - set_solver.
  - rewrite IH, dom_insert_L. set_solver.
Qed.

(** ** What the publish case leaves alone *)

Section publish_keeps.
Context {X : Type} (f : Joe → X).

(** [f] does not look at the environment nor at the channels, and not at
    the trace except for its [Put] entries; deleting a handle from the
    subscriber maps does not change it. *)
Hypothesis f_log : ∀ ev j, is_EvPut ev = false → f (log ev j) = f j.
Hypothesis f_env : ∀ e j, f (set_env e j) = f j.
Hypothesis f_chans : ∀ g j, f (set_chans g j) = f j.
Hypothesis f_delete : ∀ sub j, f (set_topics (fmap (delete sub)) j) = f j.

Lemma keeps_chan_send sub e : preserves (keeps f) (chan_send sub e).
Proof. drop_order.
  intros j. unfold keeps, chan_send.
  destruct (chans j !! sub) as [c|]; simpl; [|by apply f_log].
  destruct (chan_send_op e c); simpl; rewrite ?f_chans; by apply f_log.
Qed.

Lemma keeps_removeSubscriber sub : preserves (keeps f) (removeSubscriber sub).
Proof. drop_order.
  apply preserves_bind; [apply _ | | intros _].
  { apply preserves_modify. intros j. apply f_delete. }
  intros j. unfold keeps, chan_close.
  destruct (chans j !! sub) as [c|]; simpl; [|by apply f_log].
  destruct (chan_close_op c); simpl; rewrite ?f_chans; by apply f_log.
Qed.

Lemma keeps_publish_subs tp m subs seen :
  preserves (keeps f) (publish_subs tp m subs seen).
Proof. drop_order.
  revert seen. induction subs as [|[sub c] subs IH]; intros seen; simpl.
  - apply preserves_ret; apply _.
  - apply preserves_bind; [apply _ | apply preserves_get; apply _ | intros j].
    case_decide; [|apply IH]. case_decide; [apply IH|].
    apply preserves_bind; [apply _ | | intros err].
    { intros j'. unfold keeps, call_Send. destruct (Send c m (env j')) as [r e].
      simpl. by rewrite f_log, f_env. }
    apply preserves_bind; [apply _ | | ].
    { destruct err; [apply preserves_ret; apply _|].
      intros j'. unfold keeps, call_Flush. destruct (Flush c (env j')) as [r e].
      simpl. by rewrite f_log, f_env. }
    intros [e|]; [|apply IH].
    apply preserves_bind; [apply _ | apply keeps_chan_send | intros _].
    apply preserves_bind; [apply _ | apply keeps_removeSubscriber | intros _; apply IH].
Qed.

Lemma keeps_publish_topics m ts seen :
  preserves (keeps f) (publish_topics m ts seen).
Proof. drop_order.
  revert seen. induction ts as [|tp ts IH]; intros seen; simpl.
  - apply preserves_ret; apply _.
  - apply preserves_bind; [apply _ | apply preserves_get; apply _ | intros j].
    apply preserves_bind; [apply _ | apply keeps_publish_subs | intros seen'; apply IH].
Qed.
End publish_keeps.

(** Nothing but the subscribe case changes the set of topic entries. *)
Lemma keeps_dom_removeSubscriber sub :
  preserves (keeps (λ j, dom (topics j))) (removeSubscriber sub).
Proof. drop_order.
  apply keeps_removeSubscriber; try done. intros h j. simpl. by rewrite dom_fmap_L.
Qed.

Lemma keeps_dom_publish msg : preserves (keeps (λ j, dom (topics j))) (publish msg).
Proof. drop_order.
  apply preserves_bind; [apply _ | apply preserves_call_Put; try apply _; done | intros m].
  apply keeps_publish_topics; try done. intros h j. simpl. by rewrite dom_fmap_L.
Qed.

Lemma keeps_dom_deferred normal j : dom (topics (deferred normal j)) = dom (topics j).
Proof. drop_order.
  apply (deferred_related (keeps (λ j, dom (topics j)))); try apply _; done.
Qed.

(** ** What the unwinding does to the channels *)

Lemma closeSubscribers_chans j :
  registered_open j →
  ∃ j', closeSubscribers j = (Val tt, j') ∧
        (∀ h, is_registered j h → chans j' !! h = chan_closed_of <$> chans j !! h) ∧
        (∀ h, ¬ is_registered j h → chans j' !! h = chans j !! h).
Proof.
  intros Hopen. unfold closeSubscribers, bind, get.
  destruct (closeSubscribers_topics_run (range_topics (env j) (topics j)) ∅ j)
    as (j' & Hrun & _ & Hch).
  { intros h Hh _. apply Hopen. by apply range_topics_handles. }
  exists j'. split; [done|]. split; intros h Hh; rewrite Hch; clear Hch.
  - rewrite decide_True; [done|]. apply elem_of_difference.
    split; [by apply range_topics_handles | apply not_elem_of_empty].
  - rewrite decide_False; [done|]. intros [Hin _]%elem_of_difference.
    by apply Hh, range_topics_handles.
Qed.

Lemma deferred_chans normal j :
  registered_open j →
  (∀ h, is_registered j h →
        chans (deferred normal j) !! h = chan_closed_of <$> chans j !! h) ∧
  (∀ h, ¬ is_registered j h → chans (deferred normal j) !! h = chans j !! h).
Proof.
  intros Hopen. unfold deferred, stopGCSignal, modify.
  set (j1 := log EvStopGC (set_gcTicker (ticker_stop (gcTicker j)) j)).
  destruct (closeSubscribers_chans j1) as (j2 & Hrun & Hin & Hout); [done|].
  rewrite Hrun. simpl. split; intros h Hh; [by apply Hin | by apply Hout].
Qed.

(** [Shutdown] with a context that is not done, on a provider that runs
    and has not been stopped. *)
Lemma Shutdown_run p j :
  loop j = Looping → jdone j = false →
  Shutdown None p j = (Returns None, deferred true (set_jdone true j)).
Proof. drop_order.
  intros Hl Hd. unfold Shutdown. rewrite init_idem by by rewrite Hl.
  rewrite Hd. rewrite start_step_ReqDone by done.
  by rewrite deferred_jclosed.
Qed.

Lemma deferred_not_Looping normal j : loop (deferred normal j) ≠ Looping.
Proof. drop_order. by destruct (deferred_loop normal j) as [-> | ->]. Qed.

(** ** The loop does not block on a subscriber's channel *)

Lemma handle_not_Block r j : wf j → request_fresh r j → (handle r j).1 ≠ Block.
Proof.
  intros Hwf Hfresh. destruct r as [msg|sb|sub| |]; simpl.
  - destruct (Put replay (message msg) (msg_topics msg) (env j)) as [[m|] e] eqn:HPut.
    + destruct (publish_run msg m e j Hwf HPut) as (seen & F & j2 & Hp & _).
      by rewrite (bind_val _ _ _ _ _ Hp).
    + unfold bind, publish, bind, call_Put. by rewrite HPut.
  - destruct Hfresh as [Hc _].
    unfold bind at 1, subscribe, bind at 1, call_Replay.
    destruct (Replay replay (sub_Subscription sb) (env j)) as [[[err|]|] e]; [| |done].
    + unfold bind, chan_send. simpl. rewrite Hc. simpl.
      unfold chan_close. simpl. by rewrite lookup_insert_eq.
    + by rewrite register_run.
  - unfold bind at 1, removeSubscriber, bind at 1, modify, chan_close. simpl.
    destruct (chans j !! sub) as [ch|]; [|done]. by destruct (chan_close_op ch).
  - unfold bind at 1, gc, bind at 1, call_gcFn.
    destruct gcFn as [f|]; [|done]. by destruct (f (env j)) as [[err|] e].
  - done.
Qed.

Lemma start_step_not_Stuck r j :
  (loop j = Looping → wf j ∧ request_fresh r j) →
  loop j ≠ Stuck → loop (start_step r j) ≠ Stuck.
Proof.
  intros Hwf Hs. unfold start_step.
  destruct (loop j) eqn:El; try (by rewrite El).
  destruct (Hwf eq_refl) as [Hw Hf].
  destruct (ready r j); [|by rewrite El].
  pose proof (handle_not_Block r j Hw Hf) as Hb.
  pose proof (handle_keeps_loop r j) as Hk.
  destruct (handle r j) as [[[]| |] j']; simpl in *.
  - by destruct (deferred_loop true j') as [-> | ->].
  - by rewrite Hk, El.
  - by destruct (deferred_loop false j') as [-> | ->].
  - done.
Qed.

(** The request that [Subscribe] sends carries a channel fresh from
    [make]. *)
Lemma Subscribe_request_fresh sb j :
  wf j →
  wf (set_chans <[fresh (dom (chans j)) := chan_make]> j) ∧
  request_fresh (ReqSubscription (mkSub (fresh (dom (chans j))) sb))
    (set_chans <[fresh (dom (chans j)) := chan_make]> j).
Proof. drop_order.
  intros Hwf.
  assert (chans j !! fresh (dom (chans j)) = None) as Hh
    by apply not_elem_of_dom, is_fresh.
  split; [|split].
  - intros tp h' c Hr. simpl. specialize (Hwf tp h' c Hr).
    rewrite lookup_insert_ne; [done|]. intros Heq. rewrite <-Heq in Hwf.
    by rewrite Hh in Hwf.
  - simpl. apply lookup_insert_eq.
  - intros (tp & c & Hr). specialize (Hwf tp _ c Hr). simpl in Hwf.
    by rewrite Hh in Hwf.
Qed.

Lemma run_call_not_Stuck c j :
  (loop j = Looping → wf j) → loop j ≠ Stuck → loop (run_call c j) ≠ Stuck.
Proof.
  intros Hwf Hs.
  assert (loop (init j) ≠ Stuck) as Hsi.
  { unfold init. by destruct (loop j) eqn:El; simpl; rewrite ?El. }
  pose proof (init_wf j Hwf) as Hwi.
  destruct c as [sub p|sdone ctx_done p|sdone p|msg ts p|ctx p|]; simpl.
  - unfold Subscribe_enter.
    assert (loop (start_step
                    (ReqSubscription (mkSub (fresh (dom (chans (init j)))) sub))
                    (set_chans <[fresh (dom (chans (init j))) := chan_make]> (init j)))
            ≠ Stuck) as Hst.
    { apply start_step_not_Stuck; [|done].
      intros Hl. apply Subscribe_request_fresh. by apply Hwi. }
    simpl. destruct (jdone (init j)), (bool_decide (loop (init j) = Looping));
      try destruct p; simpl; done.
  - unfold Subscribe_wait.
    destruct (chans j !! sdone ≫= chan_recv_op) as [[v c]|];
      destruct ctx_done; try destruct p; simpl; done.
  - unfold Subscribe_leave.
    assert (loop (start_step (ReqUnsubscription sdone) j) ≠ Stuck) as Hst.
    { apply start_step_not_Stuck; [|done]. intros Hl. split; [by apply Hwf | done]. }
    destruct (chans j !! sdone ≫= chan_recv_op) as [[v c]|];
      destruct (bool_decide (loop j = Looping)); try destruct p; simpl; done.
  - unfold Publish. destruct ts as [|tp ts]; [done|].
    assert (loop (start_step (ReqMessage (mkMsg msg (tp :: ts))) (init j)) ≠ Stuck) as Hst.
    { apply start_step_not_Stuck; [|done]. intros Hl. split; [by apply Hwi | done]. }
    destruct (bool_decide (loop (init j) = Looping)), (jdone (init j));
      try destruct p; simpl; done.
  - unfold Shutdown. destruct (jdone (init j)) eqn:Hd; [done|].
    assert (loop (start_step ReqDone (set_jdone true (init j))) ≠ Stuck) as Hst.
    { apply start_step_not_Stuck; [|done]. intros Hl. split; [by apply Hwi | done]. }
    destruct ctx as [e|]; [destruct p|]; simpl; repeat (case_match; simpl); done.
  - apply start_step_not_Stuck; [|done]. intros Hl. split; [by apply Hwf | done].
Qed.

Lemma run_calls_not_Stuck cs j :
  (loop j = Looping → wf j) → loop j ≠ Stuck → loop (run_calls cs j) ≠ Stuck.
Proof.
  revert j. induction cs as [|c cs IH]; intros j Hwf Hs; simpl; [done|].
  apply IH; [by apply run_call_wf | by apply run_call_not_Stuck].
Qed.

(** ** The calls on the sinks come in blocks *)

#[local] Instance in_blocks_preorder : PreOrder in_blocks.
Proof. drop_order.
  split.
  - intros j. by exists [].
  - intros j1 j2 j3 (b1 & H1 & F1) (b2 & H2 & F2). exists (b2 ++ b1). split.
    + by rewrite H2, H1, concat_app, app_assoc.
    + by apply Forall_app.
Qed.

Lemma in_blocks_same j j' : trace j' = trace j → in_blocks j j'.
Proof. drop_order. intros Ht. by exists []. Qed.

Lemma in_blocks_log ev j : is_sink_call ev = false → in_blocks j (log ev j).
Proof. drop_order.
  intros Hev. exists [[ev]]. split; [done|].
  apply Forall_singleton. by apply block_other.
Qed.

Lemma in_blocks_chan_send sub e : preserves in_blocks (chan_send sub e).
Proof. drop_order.
  intros j. unfold chan_send.
  assert (in_blocks j (log (EvChanSend sub e) j)) by by apply in_blocks_log.
  destruct (chans j !! sub) as [c|]; [|done].
  by destruct (chan_send_op e c).
Qed.

Lemma in_blocks_removeSubscriber sub : preserves in_blocks (removeSubscriber sub).
Proof. drop_order.
  apply preserves_bind; [apply _ | | intros _].
  - apply preserves_modify. intros j. by apply in_blocks_same.
  - intros j. unfold chan_close.
    assert (in_blocks j (log (EvChanClose sub) j)) by by apply in_blocks_log.
    destruct (chans j !! sub) as [c|]; [|done].
    by destruct (chan_close_op c).
Qed.

(** [Send], then [Flush] only when [Send] returned nil. *)
Lemma in_blocks_send_flush {B} h c m (k : error → M B) :
  (∀ err, preserves in_blocks (k err)) →
  preserves in_blocks
    (bind (call_Send h c m)
       (λ err, bind (match err with
                     | None => call_Flush h c
                     | Some _ => ret err
                     end) k)).
Proof. drop_order.
  intros Hk j. unfold bind at 1, call_Send.
  destruct (Send c m (env j)) as [[e|] e1].
  - unfold bind, ret. etrans; [|apply Hk].
    exists [[EvSend h c m (Some e)]]. split; [done|].
    apply Forall_singleton, block_failed.
  - unfold bind at 1, call_Flush. simpl.
    destruct (Flush c e1) as [r2 e2]. etrans; [|apply Hk].
    exists [[EvFlush h c r2; EvSend h c m None]]. split; [done|].
    apply Forall_singleton, block_flushed.
Qed.

Lemma in_blocks_publish_subs tp m subs seen :
  preserves in_blocks (publish_subs tp m subs seen).
Proof. drop_order.
  revert seen. induction subs as [|[sub c] subs IH]; intros seen; simpl.
  - apply preserves_ret; apply _.
  - apply preserves_bind; [apply _ | apply preserves_get; apply _ | intros j].
    case_decide; [|apply IH]. case_decide; [apply IH|].
    apply in_blocks_send_flush. intros [e|]; [|apply IH].
    apply preserves_bind; [apply _ | apply in_blocks_chan_send | intros _].
    apply preserves_bind; [apply _ | apply in_blocks_removeSubscriber | intros _; apply IH].
Qed.

Lemma in_blocks_publish_topics m ts seen :
  preserves in_blocks (publish_topics m ts seen).
Proof. drop_order.
  revert seen. induction ts as [|tp ts IH]; intros seen; simpl.
  - apply preserves_ret; apply _.
  - apply preserves_bind; [apply _ | apply preserves_get; apply _ | intros j].
    apply preserves_bind; [apply _ | apply in_blocks_publish_subs | intros seen'; apply IH].
Qed.

(** ** The cases that return to the [select] *)

Lemma handle_returns r j :
  wf j → request_fresh r j → returns_to_select r j → ready r j = true →
  (handle r j).1 = Val false.
Proof.
  intros Hwf Hfresh Hret Hready. destruct r as [msg|sb|sub| |]; simpl in *.
  - destruct (Put replay (message msg) (msg_topics msg) (env j)) as [[m|] e] eqn:HPut;
      [|done].
    destruct (publish_run msg m e j Hwf HPut) as (seen & F & j2 & Hp & _).
    by rewrite (bind_val _ _ _ _ _ Hp).
  - destruct Hfresh as [Hc _].
    unfold bind at 1, subscribe, bind at 1, call_Replay.
    destruct (Replay replay (sub_Subscription sb) (env j)) as [[[err|]|] e]; [| |done].
    + unfold bind, chan_send. simpl. rewrite Hc. simpl.
      unfold chan_close. simpl. by rewrite lookup_insert_eq.
    + by rewrite register_run.
  - destruct Hret as (ch & Hc & Ho).
    unfold bind at 1, removeSubscriber, bind at 1, modify.
    by rewrite (chan_close_run sub ch).
  - unfold bind at 1, gc, bind at 1, call_gcFn.
    destruct gcFn as [f|]; [|done]. by destruct (f (env j)) as [[err|] e].
  - congruence.
Qed.

(** ** The properties that the specification states *)

(** C1. In a publish step whose [Put] returns [toDispatch], a subscriber
    registered under one of the message's topics, or under several of them,
    gets exactly one [Send], of [toDispatch], to the sink it is registered
    with under one of these topics; the step returns. *)
Theorem publish_sends_once (msg : messageWithTopics) (toDispatch : Message)
    (env' : Env) (j : Joe) (tp : string) (h : nat) (c : MessageWriter) :
  wf j →
  Put replay (message msg) (msg_topics msg) (env j) = (Some toDispatch, env') →
  tp ∈ msg_topics msg → registered j tp h = Some c →
  ∃ j' tp' c',
    publish msg j = (Val tt, j') ∧
    tp' ∈ msg_topics msg ∧ registered j tp' h = Some c' ∧
    sent_to h (trace j') = (c', toDispatch) :: sent_to h (trace j).
Proof.
  intros Hwf HPut Htp Hc.
  destruct (publish_run msg toDispatch env' j Hwf HPut)
    as (seen & F & j' & Hrun & (_ & _ & _ & new & Htr & Hin & _) & Hall).
  destruct (Hin h (Hall tp h c Htp Hc)) as (tp' & c' & Htp' & Hc' & Hsent).
  exists j', tp', c'. split; [done|]. split; [done|]. split; [done|].
  by rewrite Htr, sent_to_app, Hsent.
Qed.

(** C2. The methods of the no-op provider as [replay_noop.go] declares
    them: [Put] takes the message alone and returns it unchanged; [Replay]
    does no work and returns the boolean [true], not an error. With these
    signatures [noopReplayProvider] does not have the methods of
    [ReplayProvider], which [joe.go] calls as [Put(message, topics)] and
    [Replay(subscription) error]. *)
Theorem noopReplayProvider_methods_differ :
  (∀ n m, noopReplayProvider_Put n m = m) ∧
  (∀ n sb, noopReplayProvider_Replay n sb = true) ∧
  implements noopReplayProvider_methods ReplayProvider_methods = false.
Proof. drop_order. done. Qed.

(** C3 (as amended). On a provider that has not been shut down and whose
    loop is running or not yet started, the first [Shutdown] returns nil
    when the loop confirms its exit before the call's context is done, and
    the context's error when the context is done first; a second
    [Shutdown] then returns [ErrProviderClosed] in either case, changes
    nothing, and neither blocks nor panics. *)
Theorem Shutdown_twice (ctx1 ctx2 : error) (p1 p2 : pick) (j : Joe) :
  loop j = NotStarted ∨ (loop j = Looping ∧ jdone j = false) →
  let '(r1, j1) := Shutdown ctx1 p1 j in
  let '(r2, j2) := Shutdown ctx2 p2 j1 in
  r1 = Returns (match ctx1, p1 with
                | Some e, PickSecond => Some e
                | _, _ => None
                end) ∧
  r2 = Returns (Some ErrProviderClosed) ∧
  j2 = j1.
Proof. drop_order.
  intros Hj.
  assert (loop (init j) = Looping ∧ jdone (init j) = false) as [Hl Hd].
  { unfold init. destruct Hj as [-> | [Hl Hd]]; [done | by rewrite Hl]. }
  pose proof (Shutdown_jdone ctx1 p1 j) as Hd1.
  pose proof (Shutdown_started ctx1 p1 j) as Hn1.
  assert ((Shutdown ctx1 p1 j).1 =
          Returns (match ctx1, p1 with Some e, PickSecond => Some e | _, _ => None end))
    as Hr1.
  { unfold Shutdown. rewrite Hd.
    rewrite start_step_ReqDone by done. rewrite deferred_jclosed.
    by destruct ctx1 as [e|]; [destruct p1|]. }
  destruct (Shutdown ctx1 p1 j) as [r1 j1]. simpl in *.
  unfold Shutdown. rewrite (init_idem j1) by done. rewrite Hd1. done.
Qed.

(** C4. In a publish step, a subscriber whose sink returns an error from
    [Send] or from [Flush] has that error put on its channel, which is then
    closed, and is deleted from every topic. The [Subscribe] call waiting on
    the channel returns that error when its context is not done, and
    whenever one of its [select]s takes the receive. With its context done,
    however, the second [select] can take [ctx.Done()] and the third the
    unsubscription send: [Subscribe] then returns nil, not the error, and
    [removeSubscriber] closes the channel a second time, so that the loop is
    unwound by the panic. *)
Theorem publish_failure_removes (msg : messageWithTopics) (toDispatch : Message)
    (env' : Env) (j : Joe) :
  wf j →
  Put replay (message msg) (msg_topics msg) (env j) = (Some toDispatch, env') →
  ∃ j',
    publish msg j = (Val tt, j') ∧
    ∀ new h e,
      trace j' = new ++ trace j → (h, e) ∈ failures new →
      chans j' !! h = Some (Chan (Some e) true) ∧
      (∀ tp, registered j' tp h = None) ∧
      (∀ p, (Subscribe_wait h false p j').1 = WaitReturns (Some e)) ∧
      (Subscribe_wait h true PickFirst j').1 = WaitReturns (Some e) ∧
      (Subscribe_leave h PickFirst j').1 = Returns (Some e) ∧
      Subscribe_wait h true PickSecond j' = (WaitCtxDone, j') ∧
      (loop j = Looping →
       (Subscribe_leave h PickSecond j').1 = Returns None ∧
       loop (Subscribe_leave h PickSecond j').2 = Panicked).
Proof.
  intros Hwf HPut.
  destruct (publish_run msg toDispatch env' j Hwf HPut)
    as (seen & F & j' & Hrun & (Hreg & Hch & _ & new' & Htr & _ & _ & Hfail) & _).
  assert (loop j' = loop j) as Hloop.
  { assert (preserves (keeps loop) (publish msg)) as Hk
      by (apply preserves_publish; try apply _; done).
    specialize (Hk j). by rewrite Hrun in Hk. }
  exists j'. split; [done|]. intros new h e Hnew Hf.
  assert (F !! h = Some e) as HF.
  { apply Hfail. rewrite Htr in Hnew. simpl in Hnew.
    change (new' ++ EvPut (message msg) (msg_topics msg) :: trace j)
      with (new' ++ [EvPut (message msg) (msg_topics msg)] ++ trace j) in Hnew.
    rewrite app_assoc in Hnew. apply app_inv_tail in Hnew. subst new.
    rewrite failures_app in Hf. simpl in Hf. by rewrite app_nil_r in Hf. }
  assert (chans j' !! h = Some (Chan (Some e) true)) as Hc by by rewrite Hch, HF.
  split; [done|]. split.
  { intros tp. rewrite Hreg, decide_True; [done|]. by apply elem_of_dom. }
  unfold Subscribe_wait, Subscribe_leave. rewrite Hc. simpl.
  split; [done|]. split; [done|]. split; [by destruct (bool_decide _)|].
  split; [done|]. intros Hl.
  rewrite Hloop, Hl, bool_decide_eq_true_2 by done. simpl. split; [done|].
  assert (start_step (ReqUnsubscription h) j' =
          deferred false (log (EvChanClose h) (set_topics (fmap (delete h)) j'))) as ->.
  { unfold start_step. rewrite Hloop, Hl. simpl.
    unfold bind at 1, removeSubscriber, bind at 1, modify, chan_close. simpl.
    by rewrite Hc. }
  apply deferred_false_loop.
Qed.

(** C5. [Publish] with no topic returns [ErrNoTopic] and leaves the state
    as it is: the request does not reach the loop and [Put] is not called. *)
Theorem Publish_no_topic (msg : Message) (p : pick) (j : Joe) :
  Publish msg [] p j = (Returns (Some ErrNoTopic), j) ∧
  put_calls (trace (Publish msg [] p j).2) = put_calls (trace j).
Proof. drop_order. done. Qed.

(** C6. The subscribe case. When [Replay] returns an error, the loop sends
    that error on the subscription's channel (fresh from [Subscribe]: open
    and empty) and closes it, and the topic table is left as it was. When
    [Replay] returns nil, the subscriber is registered with its sink under
    every topic of the request. *)
Theorem subscribe_step (sb : subscription) (r : error) (env' : Env) (j : Joe) :
  Replay replay (sub_Subscription sb) (env j) = (Some r, env') →
  let '(o, j') := subscribe sb j in
  match r with
  | Some e =>
      chans j !! sub_done sb = Some chan_make →
      o = Val tt ∧
      trace j' = EvChanClose (sub_done sb) :: EvChanSend (sub_done sb) e
                   :: EvReplay (sub_Subscription sb) :: trace j ∧
      chans j' !! sub_done sb = Some (Chan (Some e) true) ∧
      topics j' = topics j
  | None =>
      o = Val tt ∧
      chans j' = chans j ∧
      ∀ tp, tp ∈ Topics (sub_Subscription sb) →
            registered j' tp (sub_done sb) = Some (Client (sub_Subscription sb))
  end.
Proof. drop_order.
  intros Hr. unfold subscribe, bind at 1, call_Replay. rewrite Hr.
  destruct r as [e|].
  - destruct (bind _ _ _) as [o j'] eqn:Hrun. intros Hc.
    unfold bind, chan_send in Hrun. simpl in Hrun. rewrite Hc in Hrun.
    simpl in Hrun. unfold chan_close in Hrun. simpl in Hrun.
    rewrite lookup_insert_eq in Hrun. simpl in Hrun.
    injection Hrun as <- <-. simpl. by rewrite lookup_insert_eq.
  - rewrite register_run. simpl. split; [done|]. split; [done|].
    intros tp Htp. unfold registered. simpl.
    rewrite register_topics_lookup. by rewrite decide_True.
Qed.

(** C7. When the loop ends, on the stop signal or unwound by a panic
    inside [Put] or [Replay], the deferred calls close [j.closed], stop the
    ticker, and call [close] exactly once on every handle that the topic
    table holds, under however many topics, and on no other handle; each
    of these channels ends closed. *)
Theorem start_cleanup (r : request) (j : Joe) :
  loop j = Looping → registered_open j → leaves_loop r j →
  let j' := start_step r j in
  (loop j' = Returned ∨ loop j' = Panicked) ∧
  jclosed j' = true ∧
  gcTicker j' ≠ Ticking ∧
  (∀ h, is_registered j h →
        closes h (trace j') = S (closes h (trace j)) ∧
        ∃ ch, chans j' !! h = Some ch ∧ chan_closed ch = true) ∧
  (∀ h, ¬ is_registered j h → closes h (trace j') = closes h (trace j)).
Proof.
  intros Hl Hopen Hr j'.
  assert (∃ normal ju, j' = deferred normal ju ∧ registered_open ju ∧
            (∀ h, is_registered ju h ↔ is_registered j h) ∧
            (∀ h, closes h (trace ju) = closes h (trace j)))
    as (normal & ju & -> & Hopen' & Hreg & Hcl).
  { unfold j', start_step. rewrite Hl.
    destruct r as [msg|sb|sub| |]; simpl in Hr; try done.
    - simpl. unfold publish, bind, call_Put.
      destruct (Put replay (message msg) (msg_topics msg) (env j)) as [o e].
      simpl in Hr. subst o. by eexists _, _.
    - simpl. unfold subscribe, bind, call_Replay.
      destruct (Replay replay (sub_Subscription sb) (env j)) as [o e].
      simpl in Hr. subst o. by eexists _, _.
    - simpl. rewrite Hr. by eexists _, _. }
  split; [apply deferred_loop|]. split; [apply deferred_jclosed|].
  split; [apply deferred_gcTicker|].
  destruct (deferred_run normal ju Hopen') as (_ & Hin & Hout).
  split; intros h Hh.
  - rewrite <-Hcl. apply Hin. by apply Hreg.
  - rewrite <-Hcl. apply Hout. by rewrite Hreg.
Qed.

(** C8. An entry of the topic table, once there, stays for as long as the
    loop runs: whatever requests the loop handles (publish, subscribe,
    unsubscribe, GC tick, stop), a topic that has an entry before still has
    one after. Only subscriber handles inside the entries are removed. *)
Theorem topic_entries_persist (rs : list request) (j : Joe) (tp : string) :
  is_Some (topics j !! tp) → is_Some (topics (start rs j) !! tp).
Proof. drop_order.
  rewrite <-!elem_of_dom. intros Htp.
  assert (topics_persist j (start rs j)) as Hp; [|by apply Hp].
  apply start_related; try apply _; unfold topics_persist; try done.
Qed.


(** C10. With no topic, [Publish] returns [ErrNoTopic] also on a provider
    that has been shut down: the check comes before the [select] that
    answers [ErrProviderClosed], which is what a publish with a topic gets
    there once the loop has left. *)
Theorem Publish_no_topic_before_closed
    (msg : Message) (ctx : error) (p1 p2 : pick) (j : Joe) :
  let j' := (Shutdown ctx p1 j).2 in
  jdone j' = true ∧
  Publish msg [] p2 j' = (Returns (Some ErrNoTopic), j') ∧
  ∀ tp ts, loop j' ≠ Looping →
           (Publish msg (tp :: ts) p2 j').1 = Returns (Some ErrProviderClosed).
Proof. drop_order.
  intros j'. pose proof (Shutdown_jdone ctx p1 j) as Hd.
  pose proof (Shutdown_started ctx p1 j) as Hn. fold j' in Hd, Hn.
  split; [done|]. split; [done|]. intros tp ts Hl.
  clearbody j'. unfold Publish, init.
  destruct (loop j') eqn:El; try done; simpl; rewrite ?El, Hd; done.
Qed.
(** ** Further properties of the loop, of the facade and of the server *)

(** X1. A subscription that is cancelled leaves no trace in the table:
    [Subscribe] on a running provider, with [Replay] returning nil,
    registers a fresh handle under the requested topics; once its context is
    done the call passes the second [select], the loop takes its
    unsubscription, and [Subscribe] returns nil. The handle is then under no
    topic, its channel is closed, every other subscriber is registered as
    before the call, and the loop still runs. *)
Theorem Subscribe_cancel_round_trip (sb : Subscription) (env' : Env)
    (p q r : pick) (j : Joe) :
  loop j = Looping → jdone j = false → wf j →
  Replay replay sb (env j) = (Some None, env') →
  ∃ h j1 j2,
    Subscribe_enter sb p j = (inr h, j1) ∧
    (∀ tp, tp ∈ Topics sb → registered j1 tp h = Some (Client sb)) ∧
    Subscribe_wait h true q j1 = (WaitCtxDone, j1) ∧
    Subscribe_leave h r j1 = (Returns None, j2) ∧
    (∀ tp h', registered j2 tp h' = registered j tp h') ∧
    chans j2 !! h = Some (Chan None true) ∧
    loop j2 = Looping.
Proof. drop_order.
  intros Hl Hd Hwf Hr.
  set (h := fresh (dom (chans j))).
  set (j0 := set_chans <[h := chan_make]> j).
  set (j1 := set_topics (register_topics h (Client sb) (Topics sb))
               (log (EvReplay sb) (set_env env' j0))).
  assert (Subscribe_enter sb p j = (inr h, j1)) as Henter.
  { rewrite Subscribe_enter_run by done. fold h j0. f_equal.
    by rewrite (start_step_subscribe_ok _ env'). }
  assert (chans j1 !! h = Some chan_make) as Hc1 by apply lookup_insert_eq.
  set (j2 := set_chans <[h := chan_closed_of chan_make]>
               (log (EvChanClose h) (set_topics (fmap (delete h)) j1))).
  exists h, j1, j2. split; [done|]. split; [|split; [|split; [|split; [|split]]]].
  - intros tp Htp. unfold registered. simpl.
    rewrite register_topics_lookup. by rewrite decide_True.
  - unfold Subscribe_wait. by rewrite Hc1.
  - unfold Subscribe_leave. rewrite Hc1. simpl.
    change (loop j1) with (loop j). rewrite Hl, bool_decide_eq_true_2 by done.
    f_equal. by apply start_step_unsubscribe.
  - intros tp h'.
    change (registered (set_topics (fmap (delete h)) j1) tp h' = registered j tp h').
    rewrite registered_delete. unfold registered at 1. simpl.
    rewrite register_topics_lookup.
    destruct (decide (h' = h)) as [->|Hne].
    + symmetry. by apply fresh_not_registered.
    + by rewrite decide_False by naive_solver.
  - apply lookup_insert_eq.
  - done.
Qed.

(** X2. The last [select] of [Subscribe] on a subscriber that the loop has
    already removed (its channel is closed, as after a failed [Send]): when
    the [select] takes the receive the call returns what the channel holds
    and the loop goes on; when it takes the unsubscription send,
    [removeSubscriber] closes the closed channel, and the loop is unwound by
    the panic. *)
Theorem Subscribe_leave_after_removal (h : nat) (e : Error) (j : Joe) :
  loop j = Looping → chans j !! h = Some (Chan (Some e) true) →
  (Subscribe_leave h PickFirst j).1 = Returns (Some e) ∧
  loop (Subscribe_leave h PickFirst j).2 = Looping ∧
  (Subscribe_leave h PickSecond j).1 = Returns None ∧
  loop (Subscribe_leave h PickSecond j).2 = Panicked ∧
  jclosed (Subscribe_leave h PickSecond j).2 = true.
Proof. drop_order.
  intros Hl Hc. unfold Subscribe_leave. rewrite Hc. simpl.
  rewrite Hl, bool_decide_eq_true_2 by done. simpl.
  split; [done|]. split; [done|]. split; [done|].
  assert (start_step (ReqUnsubscription h) j =
          deferred false (log (EvChanClose h) (set_topics (fmap (delete h)) j))) as ->.
  { unfold start_step. rewrite Hl. simpl.
    unfold bind at 1, removeSubscriber, bind at 1, modify, chan_close. simpl.
    by rewrite Hc. }
  split; [apply deferred_false_loop | apply deferred_jclosed].
Qed.

(** X3. The subscribe case when [Replay] returns nil registers the handle
    under the topics of the request and under no other, leaves every other
    subscriber as it is, and makes an entry for each requested topic that
    had none. With no topic in the request nothing is registered. *)
Theorem subscribe_registers_exactly (sb : subscription) (env' : Env) (j : Joe) :
  Replay replay (sub_Subscription sb) (env j) = (Some None, env') →
  let j' := (subscribe sb j).2 in
  (∀ tp h, registered j' tp h =
           if decide (h = sub_done sb ∧ tp ∈ Topics (sub_Subscription sb))
           then Some (Client (sub_Subscription sb)) else registered j tp h) ∧
  dom (topics j') = dom (topics j) ∪ list_to_set (Topics (sub_Subscription sb)).
Proof. drop_order.
  intros Hr j'.
  assert (subscribe sb j =
          (Val tt, set_topics (register_topics (sub_done sb) (Client (sub_Subscription sb))
                                 (Topics (sub_Subscription sb)))
                     (log (EvReplay (sub_Subscription sb)) (set_env env' j)))) as Hrun.
  { unfold subscribe, bind at 1, call_Replay. rewrite Hr. by rewrite register_run. }
  unfold j'. rewrite Hrun. simpl. split.
  - intros tp h. unfold registered. simpl. apply register_topics_lookup.
  - apply register_topics_dom_eq.
Qed.

(** X4. When [Replay] returns an error, on a running provider, the
    [Subscribe] call gets through its first [select], the loop sends the
    error on the call's channel and closes it, and the subscriber is not
    registered. The call returns that error when its context is not done,
    and whenever its second or its third [select] takes the receive. With
    the context done the second [select] can take [ctx.Done()] instead; if
    the third then takes the unsubscription send, [Subscribe] returns nil
    and the loop, closing the channel a second time, is unwound by the
    panic. *)
Theorem Subscribe_returns_replay_error (sb : Subscription) (e : Error) (env' : Env)
    (p q : pick) (j : Joe) :
  loop j = Looping → jdone j = false →
  Replay replay sb (env j) = (Some (Some e), env') →
  ∃ h j1,
    Subscribe_enter sb p j = (inr h, j1) ∧
    topics j1 = topics j ∧
    loop j1 = Looping ∧
    (Subscribe_wait h false q j1).1 = WaitReturns (Some e) ∧
    (Subscribe_wait h true PickFirst j1).1 = WaitReturns (Some e) ∧
    Subscribe_wait h true PickSecond j1 = (WaitCtxDone, j1) ∧
    (Subscribe_leave h PickFirst j1).1 = Returns (Some e) ∧
    (Subscribe_leave h PickSecond j1).1 = Returns None ∧
    loop (Subscribe_leave h PickSecond j1).2 = Panicked.
Proof. drop_order.
  intros Hl Hd Hr. eexists _, _. split; [by apply Subscribe_enter_run|].
  rewrite (start_step_subscribe_err _ e env'); [| done | done | apply lookup_insert_eq].
  set (h := fresh (dom (chans j))).
  set (j1 := set_chans _ _).
  assert (chans j1 !! h = Some (Chan (Some e) true)) as Hc by apply lookup_insert_eq.
  assert (loop j1 = Looping) as Hl1 by done.
  split; [done|]. split; [done|].
  clearbody j1.
  unfold Subscribe_wait, Subscribe_leave. rewrite Hc. simpl.
  rewrite Hl1, bool_decide_eq_true_2 by done. simpl.
  split; [done|]. split; [done|]. split; [done|]. split; [done|]. split; [done|].
  assert (start_step (ReqUnsubscription h) j1 =
          deferred false (log (EvChanClose h) (set_topics (fmap (delete h)) j1))) as ->.
  { unfold start_step. rewrite Hl1. simpl.
    unfold bind at 1, removeSubscriber, bind at 1, modify, chan_close. simpl.
    by rewrite Hc. }
  apply deferred_false_loop.
Qed.

(** X5. A publish step sends nothing to a subscriber that is registered
    under none of the message's topics, and leaves its registrations and its
    channel as they are. *)
Theorem publish_spares_other_topics (msg : messageWithTopics) (toDispatch : Message)
    (env' : Env) (j : Joe) (h : nat) :
  wf j →
  Put replay (message msg) (msg_topics msg) (env j) = (Some toDispatch, env') →
  (∀ tp, tp ∈ msg_topics msg → registered j tp h = None) →
  ∃ j',
    publish msg j = (Val tt, j') ∧
    sent_to h (trace j') = sent_to h (trace j) ∧
    (∀ tp, registered j' tp h = registered j tp h) ∧
    chans j' !! h = chans j !! h.
Proof.
  intros Hwf HPut Hnone.
  destruct (publish_run msg toDispatch env' j Hwf HPut)
    as (seen & F & j' & Hrun & (Hreg & Hch & _ & new & Htr & Hin & Hout & _) & _).
  exists j'. split; [done|].
  assert (h ∉ seen ∪ dom F) as Hh.
  { intros Hh. destruct (Hin h Hh) as (tp & c & Htp & Hc & _).
    change (registered j tp h = Some c) in Hc. by rewrite Hnone in Hc. }
  split; [|split].
  - rewrite Htr, sent_to_app, Hout by done. done.
  - intros tp. rewrite Hreg, decide_False; [done|]. clear -Hh. set_solver.
  - rewrite Hch. assert (F !! h = None) as ->; [|done].
    apply not_elem_of_dom. clear -Hh. set_solver.
Qed.

(** X6. In a publish step a subscriber whose sink returns no error stays
    registered under the same topics with the same sink, and nothing is sent
    on its channel nor is the channel closed: a subscriber is removed only
    when its sink fails. *)
Theorem publish_keeps_healthy (msg : messageWithTopics) (toDispatch : Message)
    (env' : Env) (j : Joe) :
  wf j →
  Put replay (message msg) (msg_topics msg) (env j) = (Some toDispatch, env') →
  ∃ j',
    publish msg j = (Val tt, j') ∧
    ∀ new h,
      trace j' = new ++ trace j → (∀ e, (h, e) ∉ failures new) →
      (∀ tp, registered j' tp h = registered j tp h) ∧
      chans j' !! h = chans j !! h.
Proof.
  intros Hwf HPut.
  destruct (publish_run msg toDispatch env' j Hwf HPut)
    as (seen & F & j' & Hrun & (Hreg & Hch & _ & new' & Htr & _ & _ & Hfail) & _).
  exists j'. split; [done|]. intros new h Hnew Hok.
  assert (F !! h = None) as HF.
  { destruct (F !! h) as [e|] eqn:HF; [|done]. exfalso. apply (Hok e).
    apply Hfail in HF. rewrite Htr in Hnew. simpl in Hnew.
    change (new' ++ EvPut (message msg) (msg_topics msg) :: trace j)
      with (new' ++ [EvPut (message msg) (msg_topics msg)] ++ trace j) in Hnew.
    rewrite app_assoc in Hnew. apply app_inv_tail in Hnew. subst new.
    rewrite failures_app. simpl. by rewrite app_nil_r. }
  split.
  - intros tp. rewrite Hreg, decide_False; [done|]. by apply not_elem_of_dom.
  - by rewrite Hch, HF.
Qed.

(** X7. Only the subscribe case makes topic entries, and nothing removes
    one: a publish (also to a topic that has no entry), an unsubscription, a
    GC tick and the stop signal, the unwinding included, leave the set of
    topics that have an entry exactly as it is. *)
Theorem only_subscribe_adds_topic_entries (r : request) (j : Joe) :
  (∀ sb, r ≠ ReqSubscription sb) → dom (topics (start_step r j)) = dom (topics j).
Proof. drop_order.
  intros Hr. unfold start_step.
  destruct (loop j); try done. destruct (ready r j); [|done].
  assert (dom (topics (handle r j).2) = dom (topics j)) as Hh.
  { destruct r as [msg|sb|sub| |]; simpl.
    - apply (preserves_bind (keeps (λ j, dom (topics j))));
        [apply keeps_dom_publish | intros; apply preserves_ret; apply _].
    - by destruct (Hr sb).
    - apply (preserves_bind (keeps (λ j, dom (topics j))));
        [apply keeps_dom_removeSubscriber | intros; apply preserves_ret; apply _].
    - apply (preserves_bind (keeps (λ j, dom (topics j))));
        [|intros; apply preserves_ret; apply _].
      apply preserves_gc; try apply _; done.
    - done. }
  destruct (handle r j) as [[[]| |] j']; simpl in Hh.
  - by rewrite keeps_dom_deferred.
  - done.
  - by rewrite keeps_dom_deferred.
  - done.
Qed.

(** X8. [Shutdown] releases the subscribers with nil: on a running provider,
    with a context that is not done, [Shutdown] returns nil, and the
    [Subscribe] call of every registered subscriber then returns nil, from
    whichever [select] it is in. *)
Theorem Shutdown_releases_subscribers (p q : pick) (j : Joe) (h : nat) :
  loop j = Looping → jdone j = false → wf j → is_registered j h →
  ∃ j',
    Shutdown None p j = (Returns None, j') ∧
    (Subscribe_wait h false q j').1 = WaitReturns None ∧
    (Subscribe_wait h true PickFirst j').1 = WaitReturns None ∧
    (Subscribe_leave h q j').1 = Returns None.
Proof.
  intros Hl Hd Hwf Hh. exists (deferred true (set_jdone true j)).
  split; [by apply Shutdown_run|].
  assert (chans (deferred true (set_jdone true j)) !! h = Some (Chan None true)) as Hc.
  { destruct (deferred_chans true (set_jdone true j)
                (wf_registered_open (set_jdone true j) Hwf)) as [Hin _].
    rewrite (Hin h Hh). destruct Hh as (tp & c & Hr). simpl.
    by rewrite (Hwf tp h c Hr). }
  unfold Subscribe_wait, Subscribe_leave. rewrite Hc. simpl.
  split; [done|]. split; [done|].
  rewrite bool_decide_eq_false_2 by apply deferred_not_Looping. done.
Qed.

(** X9. A subscription with no topic is accepted but registered nowhere, so
    [Shutdown] does not release it: the loop closes only the channels in the
    table. After a [Shutdown] that returned nil the [Subscribe] call is
    still blocked in its second [select], and once its context is done it
    blocks for ever in the third, where neither the receive nor the
    unsubscription send can be taken. *)
Theorem Subscribe_without_topics_is_not_released (sb : Subscription) (env' : Env)
    (p p' q : pick) (j : Joe) :
  loop j = Looping → jdone j = false → wf j →
  Topics sb = [] →
  Replay replay sb (env j) = (Some None, env') →
  ∃ h j1 j2,
    Subscribe_enter sb p j = (inr h, j1) ∧
    topics j1 = topics j ∧
    Shutdown None p' j1 = (Returns None, j2) ∧
    Subscribe_wait h false q j2 = (WaitBlocks, j2) ∧
    Subscribe_wait h true q j2 = (WaitCtxDone, j2) ∧
    Subscribe_leave h q j2 = (Blocks, j2).
Proof.
  intros Hl Hd Hwf Hts Hr.
  set (h := fresh (dom (chans j))).
  set (j1 := log (EvReplay sb) (set_env env' (set_chans <[h := chan_make]> j))).
  assert (Subscribe_enter sb p j = (inr h, j1)) as Henter.
  { rewrite Subscribe_enter_run by done. fold h. f_equal.
    rewrite (start_step_subscribe_ok _ env') by done. simpl. rewrite Hts. simpl.
    apply set_topics_id. }
  assert (∀ tp, registered j1 tp h = None) as Hfresh
    by (intros tp; by apply (fresh_not_registered j tp)).
  assert (wf j1) as Hwf1.
  { intros tp h' c Hc. simpl.
    rewrite lookup_insert_ne; [by eapply Hwf|].
    intros Heq. rewrite <-Heq, Hfresh in Hc. done. }
  exists h, j1, (deferred true (set_jdone true j1)).
  split; [done|]. split; [done|]. split; [by apply Shutdown_run|].
  assert (chans (deferred true (set_jdone true j1)) !! h = Some chan_make) as Hc.
  { destruct (deferred_chans true (set_jdone true j1)
                (wf_registered_open (set_jdone true j1) Hwf1)) as [_ Hout].
    rewrite Hout; [apply lookup_insert_eq|].
    intros (tp & c & Hc). change (registered j1 tp h = Some c) in Hc.
    by rewrite Hfresh in Hc. }
  unfold Subscribe_wait, Subscribe_leave. rewrite Hc. simpl.
  split; [done|]. split; [done|].
  rewrite bool_decide_eq_false_2 by apply deferred_not_Looping. done.
Qed.

(** X10. After [Shutdown], once the loop has left, [Subscribe] returns
    [ErrProviderClosed] from its first [select]: the request does not reach
    the loop, [Replay] is not called and nothing is registered. *)
Theorem Subscribe_after_Shutdown (sb : Subscription) (ctx : error) (p q : pick) (j : Joe) :
  let j' := (Shutdown ctx p j).2 in
  loop j' ≠ Looping →
  (Subscribe_enter sb q j').1 = inl (Returns (Some ErrProviderClosed)) ∧
  topics (Subscribe_enter sb q j').2 = topics j' ∧
  trace (Subscribe_enter sb q j').2 = trace j'.
Proof. drop_order.
  intros j' Hl. pose proof (Shutdown_jdone ctx p j) as Hd.
  pose proof (Shutdown_started ctx p j) as Hn. fold j' in Hd, Hn.
  clearbody j'. unfold Subscribe_enter. rewrite init_idem by done. simpl.
  rewrite Hd, bool_decide_eq_false_2 by done. done.
Qed.

(** X11. Without a GC method on the replay provider, or with an interval
    that is not positive, [init] starts the loop without a ticker: whatever
    the loop receives, it takes no tick and never calls [GC] (which, for a
    provider without the method, is the nil function). *)
Theorem no_ticker_no_GC (rs : list request) (j : Joe) :
  loop j = NotStarted →
  gcFn = None ∨ (ReplayGCInterval j ≤ 0)%Z →
  gcTicker (init j) = NoTicker ∧
  gcTicker (start rs (init j)) ≠ Ticking ∧
  gc_calls (trace (start rs (init j))) = gc_calls (trace j).
Proof. drop_order.
  intros Hl Hno.
  assert (gcTicker (init j) = NoTicker) as Ht.
  { unfold init. rewrite Hl. simpl. unfold ticker.
    destruct Hno as [-> | Hle]; [done|].
    destruct gcFn; [|done]. by rewrite (proj2 (Z.leb_le _ _) Hle). }
  split; [done|].
  destruct (start_gc_off rs (init j)) as [Hoff Hcalls]; [by rewrite Ht|].
  split; [done|]. rewrite Hcalls. unfold init. by rewrite Hl.
Qed.

(** X12. With a GC method on the replay provider and a positive interval,
    [init] starts the loop with a ticker, and for as long as [GC] returns
    nil the ticker is left running: [n] ticks in a row call [GC] [n] times. *)
Theorem GC_runs_on_every_tick (f : Env → error * Env) (n : nat) (j : Joe) :
  gcFn = Some f → (∀ e, (f e).1 = None) →
  loop j = NotStarted → (0 < ReplayGCInterval j)%Z →
  gcTicker (init j) = Ticking ∧
  gc_calls (trace (start (replicate n ReqGC) (init j))) = n + gc_calls (trace j) ∧
  gcTicker (start (replicate n ReqGC) (init j)) = Ticking ∧
  loop (start (replicate n ReqGC) (init j)) = Looping.
Proof. drop_order.
  intros Hgc Hnil Hl Hpos.
  assert (gcTicker (init j) = Ticking ∧ loop (init j) = Looping ∧
          trace (init j) = trace j) as (Ht & Hl' & Htr).
  { unfold init. rewrite Hl, Hgc. simpl. unfold ticker.
    by rewrite (proj2 (Z.leb_gt _ _) Hpos). }
  split; [done|]. rewrite <-Htr. clear Htr Hl Hpos.
  generalize dependent (init j). clear j. intros j Ht Hl.
  revert j Ht Hl. induction n as [|n IH]; intros j Ht Hl; [done|].
  simpl.
  assert (∃ e, start_step ReqGC j = log (EvGC None) (set_env e j)) as [e Hstep].
  { unfold start_step. rewrite Hl. simpl. rewrite Ht. simpl.
    unfold bind, gc, bind, call_gcFn. rewrite Hgc.
    specialize (Hnil (env j)). destruct (f (env j)) as [r e]. simpl in Hnil. subst r.
    by exists e. }
  rewrite Hstep. destruct (IH (log (EvGC None) (set_env e j)) Ht Hl) as (Hc & Ht' & Hl').
  split; [|done]. rewrite Hc. unfold gc_calls. simpl. lia.
Qed.

(** X13. Along any sequence of calls on a provider, from before its loop is
    started, a subscriber that is registered while the loop runs has an open
    channel with nothing in it: its [Subscribe] call is still waiting in the
    second [select], and does not return while its context is not done. *)
Theorem registered_subscriber_waits (cs : list call) (j : Joe) (tp : string)
    (h : nat) (c : MessageWriter) (q : pick) :
  loop j = NotStarted →
  loop (run_calls cs j) = Looping →
  registered (run_calls cs j) tp h = Some c →
  chans (run_calls cs j) !! h = Some chan_make ∧
  Subscribe_wait h false q (run_calls cs j) = (WaitBlocks, run_calls cs j).
Proof.
  intros Hn Hl Hr.
  assert (wf (run_calls cs j)) as Hwf.
  { apply run_calls_wf; [|done]. intros Hl'. by rewrite Hn in Hl'. }
  pose proof (Hwf tp h c Hr) as Hc. split; [done|].
  unfold Subscribe_wait. by rewrite Hc.
Qed.

(** X14. The loop never blocks in a send on a subscriber's channel: along
    any sequence of calls on a provider, from before its loop is started,
    the sends of the publish and subscribe cases find the channel's one slot
    free. *)
Theorem loop_never_blocks (cs : list call) (j : Joe) :
  loop j = NotStarted → loop (run_calls cs j) ≠ Stuck.
Proof.
  intros Hn. apply run_calls_not_Stuck; by rewrite Hn.
Qed.

(** X15. [Server.Publish] on a [Joe] never returns [ErrNoTopic]: with no
    topic it publishes to the default topic, and with topics to these. *)
Theorem Server_Publish_default_topic (e : Message) (t : string) (ts : list string)
    (p : pick) (j : Joe) :
  Server_Publish e [] p j = Publish e [DefaultTopic] p j ∧
  Server_Publish e (t :: ts) p j = Publish e (t :: ts) p j ∧
  (Server_Publish e [] p j).1 ≠ Returns (Some ErrNoTopic) ∧
  (Server_Publish e (t :: ts) p j).1 ≠ Returns (Some ErrNoTopic).
Proof. drop_order.
  split; [done|]. split; [done|].
  unfold Server_Publish, Publish, getTopics, defaultTopicSlice.
  split; destruct (bool_decide (loop (init j) = Looping)), (jdone (init j)), p; done.
Qed.

(** X16. A session that the server subscribes with its default subscription
    (no [OnSession] callback) gets the messages that [Server.Publish] sends
    without topics: the subscription is on the default topic, the publish
    goes to the default topic, and the session's sink is sent the message
    that [Put] returns. *)
Theorem default_session_gets_default_publish
    (Session_LastEventID : MessageWriter → EventID) (sess : MessageWriter)
    (e toDispatch : Message) (env1 env2 : Env) (p q : pick) (j : Joe) :
  loop j = Looping → jdone j = false → wf j →
  Replay replay (Server_getSubscription Session_LastEventID None sess).1 (env j)
    = (Some None, env1) →
  Put replay e [DefaultTopic] env1 = (Some toDispatch, env2) →
  ∃ h j1 j2,
    (Server_getSubscription Session_LastEventID None sess).2 = true ∧
    Subscribe_enter (Server_getSubscription Session_LastEventID None sess).1 p j
      = (inr h, j1) ∧
    Server_Publish e [] q j1 = (Returns None, j2) ∧
    sent_to h (trace j2) = (sess, toDispatch) :: sent_to h (trace j).
Proof.
  intros Hl Hd Hwf Hr HPut. simpl in Hr.
  set (sb := mkSubscription sess (Session_LastEventID sess) defaultTopicSlice) in *.
  set (h := fresh (dom (chans j))).
  set (j1 := set_topics (register_topics h sess defaultTopicSlice)
               (log (EvReplay sb) (set_env env1 (set_chans <[h := chan_make]> j)))).
  assert (Subscribe_enter sb p j = (inr h, j1)) as Henter.
  { rewrite Subscribe_enter_run by done. fold h. f_equal.
    by rewrite (start_step_subscribe_ok _ env1). }
  assert (wf j1) as Hwf1.
  { pose proof (Subscribe_enter_wf sb p j (λ _, Hwf)) as Hw.
    rewrite Henter in Hw. by apply Hw. }
  assert (registered j1 DefaultTopic h = Some sess) as Hreg.
  { change (register_topics h sess defaultTopicSlice (topics j) !! DefaultTopic
              ≫= (.!! h) = Some sess).
    rewrite register_topics_lookup.
    rewrite decide_True; [done|]. split; [done|]. apply list_elem_of_here. }
  destruct (publish_run (mkMsg e [DefaultTopic]) toDispatch env2 j1 Hwf1 HPut)
    as (seen & F & j2 & Hrun & (_ & _ & _ & new & Htr & Hin & _) & Hall).
  exists h, j1, j2. split; [done|]. split; [done|]. split.
  - unfold Server_Publish, getTopics, defaultTopicSlice, Publish.
    rewrite init_idem by (change (loop j1) with (loop j); by rewrite Hl).
    change (loop j1) with (loop j). change (jdone j1) with (jdone j).
    rewrite Hl, Hd, bool_decide_eq_true_2 by done. f_equal.
    unfold start_step. change (loop j1) with (loop j). rewrite Hl. simpl.
    by rewrite (bind_val _ _ _ _ _ Hrun).
  - destruct (Hin h (Hall DefaultTopic h sess (list_elem_of_here _ _) Hreg))
      as (tp & c & Htp & Hc & Hsent).
    apply list_elem_of_singleton in Htp. subst tp.
    change (registered j1 DefaultTopic h = Some c) in Hc.
    rewrite Hreg in Hc. injection Hc as <-.
    by rewrite Htr, sent_to_app, Hsent.
Qed.

(** X17. In a publish step [Flush] is called on a sink exactly when the
    [Send] on it has returned nil, right after that [Send] and for the same
    subscriber; a [Send] that returns an error is followed by no [Flush].
    The step adds to the trace a sequence of such blocks, whether it returns
    or not. *)
Theorem publish_flushes_after_send (msg : messageWithTopics) (j : Joe) :
  ∃ blocks,
    trace (publish msg j).2 = concat blocks ++ trace j ∧ Forall sink_block blocks.
Proof. drop_order.
  assert (preserves in_blocks (publish msg)) as Hp; [|apply Hp].
  apply preserves_bind; [apply _ | | intros m; apply in_blocks_publish_topics].
  intros j'. unfold call_Put.
  destruct (Put replay (message msg) (msg_topics msg) (env j')) as [r e].
  assert (in_blocks j' (log (EvPut (message msg) (msg_topics msg)) (set_env e j'))) as Hl.
  { exists [[EvPut (message msg) (msg_topics msg)]]. split; [done|].
    apply Forall_singleton. by apply block_other. }
  by destruct r.
Qed.

(** X18. The publish case calls [Put] once, before it sends anything, with
    the message and the topics of the request; no other [Put] follows in the
    step. *)
Theorem publish_calls_Put_once (msg : messageWithTopics) (j : Joe) :
  ∃ new,
    trace (publish msg j).2 = new ++ EvPut (message msg) (msg_topics msg) :: trace j ∧
    put_calls new = 0.
Proof. drop_order.
  unfold publish, bind, call_Put.
  destruct (Put replay (message msg) (msg_topics msg) (env j)) as [[m|] e];
    [|by exists []].
  set (j0 := log (EvPut (message msg) (msg_topics msg)) (set_env e j)).
  destruct (in_blocks_publish_topics m (msg_topics msg) ∅ j0) as (blocks & Htr & _).
  assert (put_calls (trace (publish_topics m (msg_topics msg) ∅ j0).2)
          = put_calls (trace j0)) as Hput.
  { apply (keeps_publish_topics (λ j, put_calls (trace j))); try done.
    intros ev j' Hev. unfold put_calls. simpl. by rewrite Hev. }
  exists (concat blocks). split; [done|].
  rewrite Htr in Hput. unfold put_calls in *. rewrite count_app in Hput. lia.
Qed.

(** X19. The loop ends only on the stop signal or by a panic. A publish
    whose [Put] returns, whatever the sinks answer, a subscription whose
    [Replay] returns, nil or an error, an unsubscription of an open channel
    and a GC tick, whatever [GC] answers, leave the loop waiting in its
    [select]. *)
Theorem errors_do_not_end_the_loop (r : request) (j : Joe) :
  loop j = Looping → wf j → request_fresh r j → returns_to_select r j →
  loop (start_step r j) = Looping.
Proof.
  intros Hl Hwf Hfresh Hret. unfold start_step. rewrite Hl.
  destruct (ready r j) eqn:Hready; [|done].
  pose proof (handle_returns r j Hwf Hfresh Hret Hready) as Hv.
  pose proof (handle_keeps_loop r j) as Hk.
  destruct (handle r j) as [[[]| |] j']; simpl in *; try discriminate.
  by rewrite Hk.
Qed.

End Engine.

(** ** The text logged for the topics *)

Lemma string_app_assoc (s1 s2 s3 : string) : (s1 +:+ s2) +:+ s3 = s1 +:+ (s2 +:+ s3).
Proof.
  induction s1 as [|a s1 IH]; [done|].
  change (String a ((s1 +:+ s2) +:+ s3) = String a (s1 +:+ (s2 +:+ s3))).
  by rewrite IH.
Qed.

Lemma string_app_nil_r (s : string) : s +:+ "" = s.
Proof.
  induction s as [|a s IH]; [done|].
  change (String a (s +:+ "") = String a s). by rewrite IH.
Qed.

Lemma remove_dups_snoc (l : list string) (t : string) :
  remove_dups (l ++ [t]) = filter (λ x, x ≠ t) (remove_dups l) ++ [t].
Proof.
  induction l as [|x l IH]; [done|]. simpl. rewrite IH.
  destruct (decide_rel elem_of x (l ++ [t])) as [Hin1|Hin1];
    destruct (decide_rel elem_of x l) as [Hin2|Hin2]; try done.
  - assert (x = t) as -> by set_solver.
    by rewrite filter_cons_False by naive_solver.
  - exfalso. set_solver.
  - rewrite filter_cons_True; [done|]. set_solver.
Qed.

Lemma first_occurrences_cons (t : string) (ts : list string) :
  first_occurrences (t :: ts) = t :: filter (λ x, x ≠ t) (first_occurrences ts).
Proof.
  unfold first_occurrences.
  rewrite reverse_cons, remove_dups_snoc, reverse_app, filter_reverse. done.
Qed.

(** Past the first topic every topic that is written is written after a
    comma. *)
Lemma getTopicsLog_range_S (i : nat) (ts : list string) (seen : gset string)
    (ret : string) :
  getTopicsLog_range (S i) ts seen ret =
  ret +:+ foldr (λ t acc, "," +:+ topic_label t +:+ acc) ""
            (filter (λ x, x ∉ seen) (first_occurrences ts)).
Proof.
  revert i seen ret. induction ts as [|t ts IH]; intros i seen ret.
  - simpl. by rewrite string_app_nil_r.
  - rewrite first_occurrences_cons. simpl getTopicsLog_range.
    destruct (decide (t ∈ seen)) as [Hin|Hin].
    + rewrite IH. rewrite filter_cons_False by naive_solver.
      rewrite list_filter_filter_l; [done|]. intros x Hx ->. done.
    + assert (∀ r : string,
                (if decide (t = DefaultTopic) then r +:+ "<sse:default>" else r +:+ t)
                = r +:+ topic_label t) as ->
        by (intros r; unfold topic_label; by case_decide).
      rewrite IH. rewrite filter_cons_True by done. simpl.
      rewrite list_filter_filter.
      rewrite !string_app_assoc. do 3 f_equal. f_equal.
      apply list_filter_iff. set_solver.
Qed.

Lemma concat_comma (x : string) (l : list string) :
  String.concat "," (x :: l) = x +:+ foldr (λ t acc, "," +:+ t +:+ acc) "" l.
Proof.
  revert x. induction l as [|y l IH]; intros x.
  - simpl. by rewrite string_app_nil_r.
  - change (String.concat "," (x :: y :: l)) with (x +:+ "," +:+ String.concat "," (y :: l)).
    by rewrite IH.
Qed.

Lemma foldr_label (l : list string) :
  foldr (λ t acc, "," +:+ topic_label t +:+ acc) "" l =
  foldr (λ t acc, "," +:+ t +:+ acc) "" (topic_label <$> l).
Proof. induction l as [|x l IH]; [done|]. simpl. by rewrite IH. Qed.

(** X20. [getTopicsLog] writes every distinct topic of the list once, in the
    order of first occurrence, the default topic as [<sse:default>], with a
    comma between two topics and none at either end. *)
Theorem getTopicsLog_lists_each_topic_once (topics : list string) :
  getTopicsLog topics = String.concat "," (topic_label <$> first_occurrences topics).
Proof.
  destruct topics as [|t ts]; [done|].
  rewrite first_occurrences_cons, fmap_cons, concat_comma, <-foldr_label.
  unfold getTopicsLog. simpl getTopicsLog_range.
  rewrite (decide_False (P := t ∈ ∅)) by set_solver.
  assert ((if decide (t = DefaultTopic) then "" +:+ "<sse:default>" else "" +:+ t)
          = topic_label t) as ->
    by (unfold topic_label; by case_decide).
  rewrite getTopicsLog_range_S.
  do 2 f_equal. apply list_filter_iff. set_solver.
Qed.

(** ** A concrete provider, for the examples *)

(** Messages, sinks and event IDs are numbers; the environment is empty.
    Sink 7 fails on [Send], sink 8 on [Flush]; [Put] panics on message 0
    and otherwise adds 100 to it; [Replay] fails for last event ID 13 and
    panics for 99; [GC] always fails. [range] follows [map_to_list]. *)
#[local] Instance ex_sink : @MessageWriterI nat nat unit :=
  {| Send := λ c m e, (if decide (c = 7) then Some (ErrOther c) else None, e);
     Flush := λ c e, (if decide (c = 8) then Some (ErrOther c) else None, e) |}.

Definition ex_replay : @ReplayProvider nat nat nat unit :=
  mkReplayProvider
    (λ m ts e, (if decide (m = 0) then None else Some (m + 100), e))
    (λ s e, (if decide (LastEventID s = 13) then Some (Some (ErrOther 13))
             else if decide (LastEventID s = 99) then None else Some None, e)).

Definition ex_gc : unit → error * unit := λ e, (Some (ErrOther 1), e).

(** A [GC] that returns nil. *)
Definition ex_gc_nil : unit → error * unit := λ e, (None, e).

Definition ex_range_subs : unit → gmap nat nat → list (nat * nat) :=
  λ _ m, map_to_list m.

Definition ex_range_topics
  : unit → gmap string (gmap nat nat) → list (string * gmap nat nat) :=
  λ _ m, map_to_list m.

(** The zero value of [Joe], with a GC interval of 5. *)
Definition ex_zero : @Joe nat nat nat unit :=
  mkJoe ∅ ∅ false false NoTicker NotStarted 5 tt [].

(** Three subscriptions are under way: handle 0 with sink 5 on topics a
    and b, handle 1 with sink 7 on b and c, handle 2 with sink 8 on a. *)
Definition ex_j : @Joe nat nat nat unit :=
  let enter := Subscribe_enter ex_range_subs ex_range_topics ex_replay (Some ex_gc) in
  let j1 := (enter (mkSubscription 5 0 ["a"; "b"]) PickFirst ex_zero).2 in
  let j2 := (enter (mkSubscription 7 0 ["b"; "c"]) PickFirst j1).2 in
  (enter (mkSubscription 8 0 ["a"]) PickFirst j2).2.

(** A fourth [Subscribe] has made its channel, handle 3. *)
Definition ex_j3 : @Joe nat nat nat unit := set_chans <[3 := chan_make]> ex_j.

(** The state after message 1 is published to topics a and b: the sinks
    of handles 1 and 2 have failed. *)
Definition ex_j_failed : @Joe nat nat nat unit :=
  start_step ex_range_subs ex_range_topics ex_replay (Some ex_gc)
    (ReqMessage (mkMsg 1 ["a"; "b"])) ex_j.

(** A run from the zero value: a subscription to topic a, then a publish
    to it. *)
Definition ex_calls : list (@call nat nat nat) :=
  [CallSubscribe (mkSubscription 5 0 ["a"]) PickFirst; CallPublish 1 ["a"] PickFirst].

Definition ex_run : @Joe nat nat nat unit :=
  run_calls ex_range_subs ex_range_topics ex_replay (Some ex_gc) ex_calls ex_zero.

(** The state is well-formed, as every state of a run is. *)
Lemma ex_j_wf : wf ex_j.
Proof. apply wfb_wf. vm_compute. reflexivity. Qed.

(** ** The properties on the concrete provider *)

(** Message 1 to topics a and b: handle 0, registered under both, gets
    message 101 once. *)
Lemma publish_sends_once_witness :
  ∃ j' tp' c',
    publish ex_range_subs ex_replay (mkMsg 1 ["a"; "b"]) ex_j = (Val tt, j') ∧
    tp' ∈ ["a"; "b"] ∧ registered ex_j tp' 0 = Some c' ∧
    sent_to 0 (trace j') = (c', 101) :: sent_to 0 (trace ex_j).
Proof.
  apply publish_sends_once with (env' := tt) (tp := "a") (c := 5).
  - intros e m. reflexivity.
  - apply ex_j_wf.
  - reflexivity.
  - apply list_elem_of_here.
  - vm_compute. reflexivity.
Defined.

(** In the same step the sink of handle 1 fails on [Send]: its
    [Subscribe] call returns the error while its context is not done, but
    with the context done it can return nil, and the loop is then unwound
    by the panic. *)
Lemma publish_failure_removes_witness :
  ∃ j',
    publish ex_range_subs ex_replay (mkMsg 1 ["a"; "b"]) ex_j = (Val tt, j') ∧
    chans j' !! 1 = Some (Chan (Some (ErrOther 7)) true) ∧
    (∀ tp, registered j' tp 1 = None) ∧
    (∀ p, (Subscribe_wait 1 false p j').1 = WaitReturns (Some (ErrOther 7))) ∧
    Subscribe_wait 1 true PickSecond j' = (WaitCtxDone, j') ∧
    (Subscribe_leave ex_range_subs ex_range_topics ex_replay (Some ex_gc)
       1 PickSecond j').1 = Returns None ∧
    loop (Subscribe_leave ex_range_subs ex_range_topics ex_replay (Some ex_gc)
            1 PickSecond j').2 = Panicked.
Proof.
  destruct (@publish_failure_removes nat nat nat unit ex_sink
              ex_range_subs ex_range_topics (λ e m, reflexivity _)
              ex_replay (Some ex_gc) (mkMsg 1 ["a"; "b"]) 101 tt ex_j
              ex_j_wf eq_refl) as (j' & Hrun & Hfail).
  exists j'. split; [exact Hrun|].
  assert (∃ new, trace j' = new ++ trace ex_j ∧ (1, ErrOther 7) ∈ failures new)
    as (new & Htr & Hin).
  { vm_compute in Hrun. injection Hrun as <-.
    exists [EvChanClose 1; EvChanSend 1 (ErrOther 7);
            EvSend 1 7 101 (Some (ErrOther 7));
            EvFlush 0 5 None; EvSend 0 5 101 None;
            EvChanClose 2; EvChanSend 2 (ErrOther 8);
            EvFlush 2 8 (Some (ErrOther 8));
            EvSend 2 8 101 None; EvPut 1 ["a"; "b"]].
    split; [reflexivity|]. simpl. apply list_elem_of_here. }
  destruct (Hfail new 1 (ErrOther 7) Htr Hin)
    as (Hc & Hreg & Hwait & _ & _ & Hdone & Hleave).
  destruct (Hleave eq_refl) as [Hnil Hpanic].
  split; [exact Hc|]. split; [exact Hreg|]. split; [exact Hwait|].
  split; [exact Hdone|]. split; [exact Hnil | exact Hpanic].
Defined.

(** A subscription whose replay fails. *)
Lemma subscribe_step_witness :
  ∃ j',
    subscribe ex_replay (mkSub 3 (mkSubscription 9 13 ["a"; "c"])) ex_j3 = (Val tt, j') ∧
    chans j' !! 3 = Some (Chan (Some (ErrOther 13)) true) ∧
    topics j' = topics ex_j3.
Proof.
  pose proof (@subscribe_step nat nat nat unit ex_replay
                (mkSub 3 (mkSubscription 9 13 ["a"; "c"]))
                (Some (ErrOther 13)) tt ex_j3 eq_refl) as Hstep.
  destruct (subscribe ex_replay _ ex_j3) as [o j'].
  destruct Hstep as (-> & _ & Hc & Ht); [vm_compute; reflexivity|].
  exists j'. split; [reflexivity|]. split; [exact Hc | exact Ht].
Defined.

(** The stop signal with the three subscribers registered. *)
Lemma start_cleanup_witness :
  let j' := start_step ex_range_subs ex_range_topics ex_replay (Some ex_gc)
              ReqDone (set_jdone true ex_j) in
  (loop j' = Returned ∨ loop j' = Panicked) ∧
  jclosed j' = true ∧
  gcTicker j' ≠ Ticking ∧
  (∀ h, is_registered (set_jdone true ex_j) h →
        closes h (trace j') = S (closes h (trace (set_jdone true ex_j))) ∧
        ∃ ch, chans j' !! h = Some ch ∧ chan_closed ch = true) ∧
  (∀ h, ¬ is_registered (set_jdone true ex_j) h →
        closes h (trace j') = closes h (trace (set_jdone true ex_j))).
Proof.
  apply start_cleanup.
  - intros e m. reflexivity.
  - intros e m. reflexivity.
  - reflexivity.
  - apply wf_registered_open, wfb_wf. vm_compute. reflexivity.
  - reflexivity.
Defined.

(** Topic c keeps its entry when its only subscriber leaves. *)
Lemma topic_entries_persist_witness :
  is_Some (topics ex_j !! "c") ∧
  is_Some (topics (start ex_range_subs ex_range_topics ex_replay (Some ex_gc)
                     [ReqUnsubscription 1; ReqGC; ReqMessage (mkMsg 1 ["c"])] ex_j)
           !! "c").
Proof.
  assert (is_Some (topics ex_j !! "c")) as Hc by (vm_compute; eauto).
  split; [exact Hc|]. apply topic_entries_persist. exact Hc.
Defined.


(** Two calls of [Shutdown] with contexts that are not done. *)
Lemma Shutdown_twice_witness :
  let '(r1, j1) := Shutdown ex_range_subs ex_range_topics ex_replay (Some ex_gc)
                     None PickFirst ex_j in
  let '(r2, j2) := Shutdown ex_range_subs ex_range_topics ex_replay (Some ex_gc)
                     None PickFirst j1 in
  r1 = Returns None ∧ r2 = Returns (Some ErrProviderClosed) ∧ j2 = j1.
Proof.
  apply (Shutdown_twice ex_range_subs ex_range_topics ex_replay (Some ex_gc)
           None None PickFirst PickFirst ex_j).
  right. split; reflexivity.
Defined.

(** The first [Shutdown] does not return nil when its context is done
    before the loop has confirmed its exit: it returns the context's
    error. *)
Lemma Shutdown_first_returns_context_error :
  (Shutdown ex_range_subs ex_range_topics ex_replay (Some ex_gc)
     (Some (ErrOther 4)) PickSecond ex_zero).1 ≠ Returns None.
Proof. vm_compute. discriminate. Qed.

(** After a shutdown that the loop has confirmed. *)
Lemma Publish_no_topic_before_closed_witness :
  let j' := (Shutdown ex_range_subs ex_range_topics ex_replay (Some ex_gc)
               None PickFirst ex_j).2 in
  loop j' ≠ Looping ∧
  Publish ex_range_subs ex_range_topics ex_replay (Some ex_gc) 1 [] PickFirst j'
    = (Returns (Some ErrNoTopic), j') ∧
  (Publish ex_range_subs ex_range_topics ex_replay (Some ex_gc) 1 ["a"] PickFirst j').1
    = Returns (Some ErrProviderClosed).
Proof.
  intros j'.
  assert (loop j' ≠ Looping) as Hl by (vm_compute; discriminate).
  destruct (Publish_no_topic_before_closed ex_range_subs ex_range_topics ex_replay
              (Some ex_gc) 1 None PickFirst PickFirst ex_j) as (_ & Hnone & Hsome).
  split; [exact Hl|]. split; [exact Hnone | exact (Hsome "a" [] Hl)].
Defined.

(** A subscription to topics a and c of sink 9, cancelled: it gets handle
    3, and the table ends as it was. *)
Lemma Subscribe_cancel_round_trip_witness :
  ∃ h j1 j2,
    Subscribe_enter ex_range_subs ex_range_topics ex_replay (Some ex_gc)
      (mkSubscription 9 0 ["a"; "c"]) PickFirst ex_j = (inr h, j1) ∧
    (∀ tp, tp ∈ ["a"; "c"] → registered j1 tp h = Some 9) ∧
    Subscribe_wait h true PickSecond j1 = (WaitCtxDone, j1) ∧
    Subscribe_leave ex_range_subs ex_range_topics ex_replay (Some ex_gc) h PickFirst j1
      = (Returns None, j2) ∧
    (∀ tp h', registered j2 tp h' = registered ex_j tp h') ∧
    chans j2 !! h = Some (Chan None true) ∧
    loop j2 = Looping.
Proof.
  apply (Subscribe_cancel_round_trip ex_range_subs ex_range_topics ex_replay (Some ex_gc)
           (mkSubscription 9 0 ["a"; "c"]) tt PickFirst PickSecond PickFirst ex_j).
  - reflexivity.
  - reflexivity.
  - apply ex_j_wf.
  - reflexivity.
Defined.

(** Handle 1 after its sink has failed: its channel holds the error and
    is closed. *)
Lemma Subscribe_leave_after_removal_witness :
  (Subscribe_leave ex_range_subs ex_range_topics ex_replay (Some ex_gc)
     1 PickFirst ex_j_failed).1 = Returns (Some (ErrOther 7)) ∧
  loop (Subscribe_leave ex_range_subs ex_range_topics ex_replay (Some ex_gc)
          1 PickFirst ex_j_failed).2 = Looping ∧
  (Subscribe_leave ex_range_subs ex_range_topics ex_replay (Some ex_gc)
     1 PickSecond ex_j_failed).1 = Returns None ∧
  loop (Subscribe_leave ex_range_subs ex_range_topics ex_replay (Some ex_gc)
          1 PickSecond ex_j_failed).2 = Panicked ∧
  jclosed (Subscribe_leave ex_range_subs ex_range_topics ex_replay (Some ex_gc)
             1 PickSecond ex_j_failed).2 = true.
Proof.
  apply Subscribe_leave_after_removal.
  - vm_compute. reflexivity.
  - vm_compute. reflexivity.
Defined.

(** Handle 3 subscribes to topic a, which has an entry, and to topic d,
    which has none. *)
Lemma subscribe_registers_exactly_witness :
  let j' := (subscribe ex_replay (mkSub 3 (mkSubscription 9 0 ["a"; "d"])) ex_j3).2 in
  (∀ tp h, registered j' tp h =
           if decide (h = 3 ∧ tp ∈ ["a"; "d"]) then Some 9 else registered ex_j3 tp h) ∧
  dom (topics j') = dom (topics ex_j3) ∪ list_to_set ["a"; "d"].
Proof.
  apply (@subscribe_registers_exactly nat nat nat unit ex_replay
           (mkSub 3 (mkSubscription 9 0 ["a"; "d"])) tt ex_j3).
  reflexivity.
Defined.

(** A subscription whose replay fails, through the facade. *)
Lemma Subscribe_returns_replay_error_witness :
  ∃ h j1,
    Subscribe_enter ex_range_subs ex_range_topics ex_replay (Some ex_gc)
      (mkSubscription 9 13 ["a"]) PickFirst ex_j = (inr h, j1) ∧
    topics j1 = topics ex_j ∧
    loop j1 = Looping ∧
    (Subscribe_wait h false PickSecond j1).1 = WaitReturns (Some (ErrOther 13)) ∧
    (Subscribe_wait h true PickFirst j1).1 = WaitReturns (Some (ErrOther 13)) ∧
    Subscribe_wait h true PickSecond j1 = (WaitCtxDone, j1) ∧
    (Subscribe_leave ex_range_subs ex_range_topics ex_replay (Some ex_gc)
       h PickFirst j1).1 = Returns (Some (ErrOther 13)) ∧
    (Subscribe_leave ex_range_subs ex_range_topics ex_replay (Some ex_gc)
       h PickSecond j1).1 = Returns None ∧
    loop (Subscribe_leave ex_range_subs ex_range_topics ex_replay (Some ex_gc)
            h PickSecond j1).2 = Panicked.
Proof.
  apply (Subscribe_returns_replay_error ex_range_subs ex_range_topics ex_replay
           (Some ex_gc) (mkSubscription 9 13 ["a"]) (ErrOther 13) tt
           PickFirst PickSecond ex_j).
  - reflexivity.
  - reflexivity.
  - reflexivity.
Defined.

(** Message 1 to topic a: handle 1, registered under b and c, gets
    nothing. *)
Lemma publish_spares_other_topics_witness :
  ∃ j',
    publish ex_range_subs ex_replay (mkMsg 1 ["a"]) ex_j = (Val tt, j') ∧
    sent_to 1 (trace j') = sent_to 1 (trace ex_j) ∧
    (∀ tp, registered j' tp 1 = registered ex_j tp 1) ∧
    chans j' !! 1 = chans ex_j !! 1.
Proof.
  apply publish_spares_other_topics with (toDispatch := 101) (env' := tt).
  - intros e m. reflexivity.
  - apply ex_j_wf.
  - reflexivity.
  - intros tp Htp. apply list_elem_of_singleton in Htp. rewrite Htp.
    vm_compute. reflexivity.
Defined.

(** Message 1 to topics a and b: the sink of handle 0 takes it, and
    handle 0 stays as it is. *)
Lemma publish_keeps_healthy_witness :
  ∃ j',
    publish ex_range_subs ex_replay (mkMsg 1 ["a"; "b"]) ex_j = (Val tt, j') ∧
    (∀ tp, registered j' tp 0 = registered ex_j tp 0) ∧
    chans j' !! 0 = chans ex_j !! 0.
Proof.
  destruct (@publish_keeps_healthy nat nat nat unit ex_sink
              ex_range_subs (λ e m, reflexivity _)
              ex_replay (mkMsg 1 ["a"; "b"]) 101 tt ex_j
              ex_j_wf eq_refl) as (j' & Hrun & Hok).
  exists j'. split; [exact Hrun|].
  apply (Hok [EvChanClose 1; EvChanSend 1 (ErrOther 7);
              EvSend 1 7 101 (Some (ErrOther 7));
              EvFlush 0 5 None; EvSend 0 5 101 None;
              EvChanClose 2; EvChanSend 2 (ErrOther 8);
              EvFlush 2 8 (Some (ErrOther 8));
              EvSend 2 8 101 None; EvPut 1 ["a"; "b"]] 0).
  - vm_compute in Hrun. injection Hrun as <-. reflexivity.
  - intros e He. simpl in He.
    apply elem_of_cons in He as [He|He]; [discriminate He|].
    apply elem_of_cons in He as [He|He]; [discriminate He|].
    by apply elem_of_nil in He.
Defined.

(** A publish to a topic that has no entry makes none. *)
Lemma only_subscribe_adds_topic_entries_witness :
  dom (topics (start_step ex_range_subs ex_range_topics ex_replay (Some ex_gc)
                 (ReqMessage (mkMsg 1 ["d"])) ex_j)) = dom (topics ex_j).
Proof.
  apply only_subscribe_adds_topic_entries. intros sb Hsb. discriminate Hsb.
Defined.

(** [Shutdown] with the three subscribers registered: the call of handle
    0 returns nil. *)
Lemma Shutdown_releases_subscribers_witness :
  ∃ j',
    Shutdown ex_range_subs ex_range_topics ex_replay (Some ex_gc) None PickFirst ex_j
      = (Returns None, j') ∧
    (Subscribe_wait 0 false PickFirst j').1 = WaitReturns None ∧
    (Subscribe_wait 0 true PickFirst j').1 = WaitReturns None ∧
    (Subscribe_leave ex_range_subs ex_range_topics ex_replay (Some ex_gc)
       0 PickFirst j').1 = Returns None.
Proof.
  apply Shutdown_releases_subscribers.
  - intros e m. reflexivity.
  - intros e m. reflexivity.
  - reflexivity.
  - reflexivity.
  - apply ex_j_wf.
  - exists "a", 5. vm_compute. reflexivity.
Defined.

(** A subscription of sink 9 with no topic, and then [Shutdown]. *)
Lemma Subscribe_without_topics_is_not_released_witness :
  ∃ h j1 j2,
    Subscribe_enter ex_range_subs ex_range_topics ex_replay (Some ex_gc)
      (mkSubscription 9 0 []) PickFirst ex_j = (inr h, j1) ∧
    topics j1 = topics ex_j ∧
    Shutdown ex_range_subs ex_range_topics ex_replay (Some ex_gc) None PickFirst j1
      = (Returns None, j2) ∧
    Subscribe_wait h false PickFirst j2 = (WaitBlocks, j2) ∧
    Subscribe_wait h true PickFirst j2 = (WaitCtxDone, j2) ∧
    Subscribe_leave ex_range_subs ex_range_topics ex_replay (Some ex_gc) h PickFirst j2
      = (Blocks, j2).
Proof.
  apply (Subscribe_without_topics_is_not_released ex_range_subs ex_range_topics
           (λ e m, reflexivity _) (λ e m, reflexivity _) ex_replay (Some ex_gc)
           (mkSubscription 9 0 []) tt PickFirst PickFirst PickFirst ex_j).
  - reflexivity.
  - reflexivity.
  - apply ex_j_wf.
  - reflexivity.
  - reflexivity.
Defined.

(** [Subscribe] after a [Shutdown] that the loop has confirmed. *)
Lemma Subscribe_after_Shutdown_witness :
  (Subscribe_enter ex_range_subs ex_range_topics ex_replay (Some ex_gc)
     (mkSubscription 9 0 ["a"]) PickSecond
     (Shutdown ex_range_subs ex_range_topics ex_replay (Some ex_gc)
        None PickFirst ex_j).2).1
  = inl (Returns (Some ErrProviderClosed)).
Proof.
  apply (Subscribe_after_Shutdown ex_range_subs ex_range_topics ex_replay (Some ex_gc)
           (mkSubscription 9 0 ["a"]) None PickFirst PickSecond ex_j).
  vm_compute. discriminate.
Defined.

(** The zero value with an interval of 5 and a replay provider that has
    no GC method: a tick and a publish. *)
Lemma no_ticker_no_GC_witness :
  gcTicker (init None ex_zero) = NoTicker ∧
  gcTicker (start ex_range_subs ex_range_topics ex_replay None
              [ReqGC; ReqMessage (mkMsg 1 ["a"])] (init None ex_zero)) ≠ Ticking ∧
  gc_calls (trace (start ex_range_subs ex_range_topics ex_replay None
                     [ReqGC; ReqMessage (mkMsg 1 ["a"])] (init None ex_zero)))
  = gc_calls (trace ex_zero).
Proof.
  apply no_ticker_no_GC.
  - reflexivity.
  - left. reflexivity.
Defined.

(** The zero value with an interval of 5 and a [GC] that returns nil:
    three ticks. *)
Lemma GC_runs_on_every_tick_witness :
  gcTicker (init (Some ex_gc_nil) ex_zero) = Ticking ∧
  gc_calls (trace (start ex_range_subs ex_range_topics ex_replay (Some ex_gc_nil)
                     (replicate 3 ReqGC) (init (Some ex_gc_nil) ex_zero)))
  = 3 + gc_calls (trace ex_zero) ∧
  gcTicker (start ex_range_subs ex_range_topics ex_replay (Some ex_gc_nil)
              (replicate 3 ReqGC) (init (Some ex_gc_nil) ex_zero)) = Ticking ∧
  loop (start ex_range_subs ex_range_topics ex_replay (Some ex_gc_nil)
          (replicate 3 ReqGC) (init (Some ex_gc_nil) ex_zero)) = Looping.
Proof.
  apply GC_runs_on_every_tick with (f := ex_gc_nil).
  - reflexivity.
  - intros e. reflexivity.
  - reflexivity.
  - reflexivity.
Defined.

(** After the run handle 0 is registered under topic a and still waits. *)
Lemma registered_subscriber_waits_witness :
  chans ex_run !! 0 = Some chan_make ∧
  Subscribe_wait 0 false PickFirst ex_run = (WaitBlocks, ex_run).
Proof.
  apply (registered_subscriber_waits ex_range_subs ex_range_topics
           (λ e m, reflexivity _) ex_replay (Some ex_gc)
           ex_calls ex_zero "a" 0 5 PickFirst).
  - reflexivity.
  - vm_compute. reflexivity.
  - vm_compute. reflexivity.
Defined.

Lemma loop_never_blocks_witness : loop ex_run ≠ Stuck.
Proof.
  apply (loop_never_blocks ex_range_subs ex_range_topics
           (λ e m, reflexivity _) ex_replay (Some ex_gc)
           ex_calls ex_zero).
  reflexivity.
Defined.

(** A session with sink 5 and no last event ID, subscribed by default,
    and message 1 published without topics. *)
Lemma default_session_gets_default_publish_witness :
  ∃ h j1 j2,
    (Server_getSubscription (λ _ : nat, 0) None 5).2 = true ∧
    Subscribe_enter ex_range_subs ex_range_topics ex_replay (Some ex_gc)
      (Server_getSubscription (λ _ : nat, 0) None 5).1 PickFirst ex_j = (inr h, j1) ∧
    Server_Publish ex_range_subs ex_range_topics ex_replay (Some ex_gc) 1 [] PickFirst j1
      = (Returns None, j2) ∧
    sent_to h (trace j2) = (5, 101) :: sent_to h (trace ex_j).
Proof.
  apply (default_session_gets_default_publish ex_range_subs ex_range_topics
           (λ e m, reflexivity _) ex_replay (Some ex_gc) (λ _ : nat, 0) 5 1 101 tt tt
           PickFirst PickFirst ex_j).
  - reflexivity.
  - reflexivity.
  - apply ex_j_wf.
  - reflexivity.
  - reflexivity.
Defined.

(** Message 1 to topics a and b makes two of the three sinks fail; the
    loop goes on. *)
Lemma errors_do_not_end_the_loop_witness :
  loop (start_step ex_range_subs ex_range_topics ex_replay (Some ex_gc)
          (ReqMessage (mkMsg 1 ["a"; "b"])) ex_j) = Looping.
Proof.
  apply errors_do_not_end_the_loop.
  - intros e m. reflexivity.
  - reflexivity.
  - apply ex_j_wf.
  - exact I.
  - vm_compute. discriminate.
Defined.
